(** * Metrics analysis and benchmark statistics of the Raft key vault

    Shallow embedding of [analyze_metrics.py] (class [MetricsAnalyzer]) and of
    the statistical core of [benchmarks/plot.py], with the properties the
    design document states about them.

    Conventions.
    - A CSV row produced by [csv.DictReader] is a record holding the columns
      the analyser reads.  The [timestamp] column is kept already resolved by
      [datetime.fromisoformat] to an instant, counted in microseconds (the
      resolution of a Python [datetime]).
    - A Python dict used as a map is a [gmap], a [set] is a [gset]; a dict
      whose iteration order the code relies on is a list of items.
    - A raised exception is [None] in an [option] result.
    - Binary floating point numbers are idealised as exact numbers: rationals
      [Q] where the code only adds, multiplies and divides (latencies,
      percentiles), reals [R] where it takes square roots or calls the
      Student-t quantile (standard deviation, confidence interval).  NaN, the
      value pandas and numpy give to an undefined statistic, is [None].
    - The calls into numpy and pandas ([np.percentile], the grouped ['mean']
      and ['std']) are embedded as those libraries compute them;
      [scipy.stats.t.ppf] and the reading of a latency file are parameters. *)

From Stdlib Require Import ZArith QArith Qround Qabs Qreals Reals Lra Lia List.
From Stdlib Require Import Bool Ascii.
From Stdlib Require Lqa.
From Stdlib Require Import Sorting.Sorted Sorting.Permutation.
From stdpp Require Import gmap strings list fin_maps.
Import ListNotations.

(* ===================================================================== *)
(** * analyze_metrics.py                                                  *)
(* ===================================================================== *)

Module AnalyzeMetrics.

Local Open Scope string_scope.
Local Open Scope Z_scope.
Local Open Scope list_scope.

(** One row of the metrics CSV. *)
Record Event : Type := mkEvent {
  timestamp : Z;          (* event['timestamp'], in microseconds *)
  event_type : string;    (* event['event_type'] *)
  node_id : string        (* event['node_id'] *)
}.

(** The dict [{'start': event, 'end': None}] of [get_elections]; [end] is a
    reserved word, hence [end_]. *)
Record Election : Type := mkElection {
  start : Event;
  end_ : option Event
}.

(** [get_event_counts]: [counts[event['event_type']] += 1] on a
    [defaultdict(int)]. *)
Definition count_event (counts : gmap string nat) (event : Event)
  : gmap string nat :=
  <[event_type event := (default 0%nat (counts !! event_type event) + 1)%nat]>
    counts.

Definition get_event_counts (events : list Event) : gmap string nat :=
  fold_left count_event events ∅.

(** [get_term_changes]. *)
Definition get_term_changes (events : list Event) : list Event :=
  List.filter (fun e => String.eqb (event_type e) "TERM_CHANGE") events.

(** [get_elections].  The loop state is the pair of the local variables
    [elections] and [current_election]; the empty dict [{}] is [None]. *)
Definition get_elections_step
  (st : list Election * option Election) (event : Event)
  : list Election * option Election :=
  let '(elections, current_election) := st in
  if String.eqb (event_type event) "ELECTION_START" then
    (elections, Some {| start := event; end_ := None |})
  else if String.eqb (event_type event) "ELECTION_END" then
    match current_election with
    | Some cur =>
        (elections ++ [ {| start := start cur; end_ := Some event |} ], None)
    | None => (elections, current_election)
    end
  else (elections, current_election).

Definition get_elections_loop (events : list Event)
  (st : list Election * option Election) : list Election * option Election :=
  fold_left get_elections_step events st.

Definition get_elections (events : list Event) : list Election :=
  fst (get_elections_loop events ([], None)).

(** [(end_time - start_time).total_seconds() * 1000]: the difference of two
    instants in milliseconds. *)
Definition latency_ms (start_time end_time : Z) : Q :=
  Qmake (end_time - start_time) 1000.

(** The loop of [calculate_election_latencies] over a list of elections:
    [if election['end']: latencies.append(latency_ms)]. *)
Definition latencies_step (latencies : list Q) (election : Election) : list Q :=
  match end_ election with
  | Some e =>
      latencies ++ [latency_ms (timestamp (start election)) (timestamp e)]
  | None => latencies
  end.

Definition latencies_of (elections : list Election) : list Q :=
  fold_left latencies_step elections [].

Definition calculate_election_latencies (events : list Event) : list Q :=
  latencies_of (get_elections events).

(** [get_node_ids]. *)
Definition get_node_ids (events : list Event) : gset string :=
  list_to_set (map node_id events).

(** The dict built by [export_json_report] ([nodes] is the sorted listing of
    the set of node ids). *)
Record Report : Type := mkReport {
  event_counts : gmap string nat;
  total_events : nat;
  nodes : gset string;
  elections : nat;
  election_latencies_ms : list Q;
  writes : nat;
  reads : nat
}.

Definition export_json_report (events : list Event) : Report :=
  {| event_counts := get_event_counts events;
     total_events := length events;
     nodes := get_node_ids events;
     elections := length (get_elections events);
     election_latencies_ms := calculate_election_latencies events;
     writes := length
       (List.filter (fun e => String.eqb (event_type e) "WRITE_REQUEST") events);
     reads := length
       (List.filter (fun e => String.eqb (event_type e) "READ_REQUEST") events) |}.

(** Vocabulary of the properties. *)

Definition is_start (e : Event) : bool :=
  String.eqb (event_type e) "ELECTION_START".

Definition is_end (e : Event) : bool :=
  String.eqb (event_type e) "ELECTION_END".

Definition is_election_event (e : Event) : bool := is_start e || is_end e.

(** An interval is closed when its end is present, open otherwise. *)
Definition closed (el : Election) : bool :=
  match end_ el with Some _ => true | None => false end.

(** Sum of the values of a count dict. *)
Definition sum_counts (counts : gmap string nat) : nat :=
  map_fold (fun _ c acc => (c + acc)%nat) 0%nat counts.

(** Timestamps never decrease along the stream. *)
Fixpoint nondecreasing (events : list Event) : Prop :=
  match events with
  | [] => True
  | e :: rest =>
      Forall (fun e' => timestamp e <= timestamp e') rest /\ nondecreasing rest
  end.

(** The pending interval counts for one, the empty dict for none. *)
Definition pending (cur : option Election) : nat :=
  match cur with Some _ => 1%nat | None => 0%nat end.

(** An interval whose end, when present, is not earlier than its start. *)
Definition ordered (el : Election) : Prop :=
  forall e, end_ el = Some e -> timestamp (start el) <= timestamp e.

(** The latency of one interval, when its end is present. *)
Definition election_latency (el : Election) : option Q :=
  match end_ el with
  | Some e => Some (latency_ms (timestamp (start el)) (timestamp e))
  | None => None
  end.

(** How many events of the stream have the given type. *)
Definition occurrences (ty : string) (events : list Event) : nat :=
  length (List.filter (fun e => String.eqb (event_type e) ty) events).

(** Sample events. *)
Definition ev (t : Z) (ty : string) : Event :=
  {| timestamp := t; event_type := ty; node_id := "n1" |}.

(** ** The rest of the analyser *)

(** [needle in s] on strings. *)
Fixpoint contains (needle s : string) : bool :=
  String.prefix needle s
  || match s with
     | EmptyString => false
     | String _ rest => contains needle rest
     end.

(** [get_replication_stats]. *)
Definition get_replication_stats (events : list Event) : nat :=
  length (List.filter (fun e => contains "REPLICATION" (event_type e)) events).

(** [min(l)] and [max(l)]: the first smallest and the first largest
    element; ValueError on an empty list ([None]). *)
Definition py_min (l : list Q) : option Q :=
  match l with
  | [] => None
  | x :: rest =>
      Some (fold_left (fun m y => if Qle_bool m y then m else y) rest x)
  end.

Definition py_max (l : list Q) : option Q :=
  match l with
  | [] => None
  | x :: rest =>
      Some (fold_left (fun m y => if Qle_bool y m then m else y) rest x)
  end.

(** [statistics.mean] and [statistics.stdev], which compute with exact
    fractions: StatisticsError ([None]) on no data, respectively on fewer
    than two data points. *)
Definition sum_Q (l : list Q) : Q := fold_left Qplus l 0%Q.

Definition statistics_mean (data : list Q) : option Q :=
  match data with
  | [] => None
  | _ => Some (sum_Q data / inject_Z (Z.of_nat (length data)))%Q
  end.

Definition statistics_variance (data : list Q) : option Q :=
  if (length data <? 2)%nat then None
  else
    let c := (sum_Q data / inject_Z (Z.of_nat (length data)))%Q in
    Some (sum_Q (map (fun x => (x - c) * (x - c)) data)
          / inject_Z (Z.of_nat (length data) - 1))%Q.

Definition statistics_stdev (data : list Q) : option R :=
  option_map (fun v => sqrt (Q2R v)) (statistics_variance data).

(** What [print_summary] prints: the numbers of its sections 1 to 7 (the
    event distribution and the node ids are listed in sorted order).  The
    latency statistics are printed only [if latencies], the standard
    deviation only [if len(latencies) > 1], the time range only
    [if self.events].  [None] when a call raises. *)
Record LatencyStats : Type := mkLatencyStats {
  lat_min : Q;
  lat_max : Q;
  lat_mean : Q;
  lat_stdev : option R
}.

Record Summary : Type := mkSummary {
  sum_event_counts : gmap string nat;
  sum_nodes : gset string;
  sum_elections : nat;
  sum_latencies : option LatencyStats;
  sum_term_changes : nat;
  sum_replication : nat;
  sum_writes : nat;
  sum_reads : nat;
  sum_time_range : option (Z * Z)
}.

Definition latency_summary (latencies : list Q)
  : option (option LatencyStats) :=
  match latencies with
  | [] => Some None
  | _ =>
      match py_min latencies, py_max latencies, statistics_mean latencies with
      | Some mn, Some mx, Some mean =>
          if (1 <? length latencies)%nat then
            match statistics_stdev latencies with
            | Some sd =>
                Some (Some {| lat_min := mn; lat_max := mx; lat_mean := mean;
                              lat_stdev := Some sd |})
            | None => None
            end
          else
            Some (Some {| lat_min := mn; lat_max := mx; lat_mean := mean;
                          lat_stdev := None |})
      | _, _, _ => None
      end
  end.

Definition time_range (events : list Event) : option (Z * Z) :=
  match events with
  | [] => None
  | first :: _ => Some (timestamp first, timestamp (List.last events first))
  end.

Definition print_summary (events : list Event) : option Summary :=
  match latency_summary (calculate_election_latencies events) with
  | None => None
  | Some stats =>
      Some {| sum_event_counts := get_event_counts events;
              sum_nodes := get_node_ids events;
              sum_elections := length (get_elections events);
              sum_latencies := stats;
              sum_term_changes := length (get_term_changes events);
              sum_replication := get_replication_stats events;
              sum_writes := length
                (List.filter
                   (fun e => String.eqb (event_type e) "WRITE_REQUEST") events);
              sum_reads := length
                (List.filter
                   (fun e => String.eqb (event_type e) "READ_REQUEST") events);
              sum_time_range := time_range events |}
  end.

(** ** Vocabulary of the further properties *)

(** A stream of START/END pairs one after the other, and the interval a
    pair makes. *)
Definition alternating (pairs : list (Event * Event)) : list Event :=
  flat_map (fun p => [fst p; snd p]) pairs.

Definition paired (p : Event * Event) : Election :=
  {| start := fst p; end_ := Some (snd p) |}.

(** The interval is a START of the stream with the first START or END that
    follows it, which is an END. *)
Definition paired_in (events : list Event) (el : Election) : Prop :=
  exists e pre mid post,
    end_ el = Some e
    /\ events = pre ++ start el :: mid ++ e :: post
    /\ is_start (start el) = true
    /\ is_end e = true
    /\ Forall (fun x => is_election_event x = false) mid.

(** No interval is pending after the events: they hold no START and no
    END at all, or the last START or END among them is an END. *)
Definition idle_after (events : list Event) : Prop :=
  Forall (fun x => is_election_event x = false) events
  \/ exists before e mid,
       events = before ++ e :: mid
       /\ is_end e = true
       /\ Forall (fun x => is_election_event x = false) mid.

(** The buckets of a count dict whose key satisfies [p]. *)
Definition buckets (p : string -> bool) (counts : gmap string nat)
  : gmap string nat :=
  filter (fun kv => p (fst kv) = true) counts.

End AnalyzeMetrics.

(* ===================================================================== *)
(** * benchmarks/plot.py                                                  *)
(* ===================================================================== *)

Module Plot.

Local Open Scope string_scope.
Local Open Scope list_scope.

(** ** Insertion-ordered dicts

    [plot_latency_cdf] iterates over the dicts it builds, so their insertion
    order matters: a dict is a list of items with distinct keys. *)

Abbreviation dict V := (list (string * V)) (only parsing).

Fixpoint dict_get {V} (k : string) (d : dict V) : option V :=
  match d with
  | [] => None
  | (k', v) :: rest => if String.eqb k' k then Some v else dict_get k rest
  end.

(** [f(d.setdefault(k, dflt))] where [f] updates the stored value in place:
    an existing key keeps its position, a new key goes last. *)
Fixpoint setdefault_update {V} (k : string) (dflt : V) (f : V -> V)
  (d : dict V) : dict V :=
  match d with
  | [] => [(k, f dflt)]
  | (k', v) :: rest =>
      if String.eqb k' k then (k', f v) :: rest
      else (k', v) :: setdefault_update k dflt f rest
  end.

(** ** File names *)

(** [s.split(sep)] for a one-character separator. *)
Fixpoint split (sep : Ascii.ascii) (s : string) : list string :=
  match s with
  | EmptyString => [EmptyString]
  | String c rest =>
      if Ascii.eqb c sep then EmptyString :: split sep rest
      else match split sep rest with
           | piece :: pieces => String c piece :: pieces
           | [] => [String c EmptyString]
           end
  end.

(** [os.path.basename]: what follows the last slash. *)
Definition basename (path : string) : string :=
  List.last (split "/"%char path) EmptyString.

(** The loop body that fills [groups]: files whose name has fewer than four
    underscore-separated parts are skipped. *)
Definition groups_step (groups : dict (list string)) (path : string)
  : dict (list string) :=
  let base := basename path in
  let parts := split "_"%char base in
  if (length parts <? 4)%nat then groups
  else
    let scenario := nth 0 parts EmptyString in
    let req := nth 1 parts EmptyString in
    let key := (scenario ++ "_" ++ req)%string in
    setdefault_update key [] (fun files => files ++ [path]) groups.

Definition build_groups (lat_csv_paths : list string) : dict (list string) :=
  fold_left groups_step lat_csv_paths [].

(** The loop body that fills [by_req]; [scenario, req = key.split('_')] raises
    ValueError unless the key has exactly two parts ([None]). *)
Definition by_req_step (by_req : option (dict (dict (list string))))
  (item : string * list string) : option (dict (dict (list string))) :=
  match by_req with
  | None => None
  | Some by_req =>
      let '(key, files) := item in
      match split "_"%char key with
      | [scenario; req] =>
          Some (setdefault_update req []
                  (setdefault_update scenario [] (fun l => l ++ files)) by_req)
      | _ => None
      end
  end.

Definition build_by_req (groups : dict (list string))
  : option (dict (dict (list string))) :=
  fold_left by_req_step groups (Some []).

(** ** Percentiles *)

Local Open Scope Q_scope.

(** [np.sort] on exact numbers. *)
Fixpoint insert_sorted (x : Q) (l : list Q) : list Q :=
  match l with
  | [] => [x]
  | y :: rest => if Qle_bool x y then x :: l else y :: insert_sorted x rest
  end.

Definition sort (l : list Q) : list Q := fold_right insert_sorted [] l.

(** [arr[i]] with Python's negative indices. *)
Definition py_index (arr : list Q) (i : Z) : Q :=
  if (i <? 0)%Z then nth (Z.to_nat (Z.of_nat (length arr) + i)) arr 0
  else nth (Z.to_nat i) arr 0.

(** numpy's [_lerp(a, b, t)]: [a + (b - a) * t], replaced by
    [b - (b - a) * (1 - t)] where [t >= 0.5]. *)
Definition lerp (a b t : Q) : Q :=
  if Qle_bool (1 # 2) t then b - (b - a) * (1 - t) else a + (b - a) * t.

(** [np.percentile(a, q)] with numpy's default method ['linear'], as the
    library computes it: the virtual index [(n - 1) * (q / 100)], its floor
    and the next index (both set to the last element once the virtual index
    reaches [n - 1]), and the interpolation weight [gamma].  The percentile
    of an empty array is NaN. *)
Definition np_percentile (a : list Q) (q : Q) : option Q :=
  let arr := sort a in
  let values_count := Z.of_nat (length arr) in
  if (values_count =? 0)%Z then None
  else
    let virtual_index := inject_Z (values_count - 1) * (q / 100) in
    let above_bounds := Qle_bool (inject_Z (values_count - 1)) virtual_index in
    let previous_index :=
      if above_bounds then (-1)%Z else Qfloor virtual_index in
    let next_index :=
      if above_bounds then (-1)%Z else (Qfloor virtual_index + 1)%Z in
    let gamma := virtual_index - inject_Z previous_index in
    Some (lerp (py_index arr previous_index) (py_index arr next_index) gamma).

(** [round(x, ndigits)] on the exact value: to the nearest multiple of
    [10^-ndigits], ties to the even one.  The code rounds a binary float
    (scale, round to an integer, divide), whose result can differ from this
    one in the last digit. *)
Definition round_half_even (x : Q) : Z :=
  let f := Qfloor x in
  let r := x - inject_Z f in
  if Qle_bool (1 # 2) r then
    if Qle_bool r (1 # 2) then (if Z.even f then f else f + 1)%Z
    else (f + 1)%Z
  else f.

Definition round (x : Q) (ndigits : nat) : Q :=
  inject_Z (round_half_even (x * inject_Z (10 ^ Z.of_nat ndigits)))
  / inject_Z (10 ^ Z.of_nat ndigits).

(** The percentile in the words of the design: over the sorted array the
    rank is [p/100 * (n - 1)], and the value is interpolated between the
    elements at the floor and at the ceiling of the rank. *)
Definition percentile_by_ranks (sorted : list Q) (p : Q) : Q :=
  let rank := p / 100 * inject_Z (Z.of_nat (length sorted) - 1) in
  let lo := Qfloor rank in
  let hi := Qceiling rank in
  nth (Z.to_nat lo) sorted 0
  + (nth (Z.to_nat hi) sorted 0 - nth (Z.to_nat lo) sorted 0)
    * (rank - inject_Z lo).

(** One entry of [percentiles_rows]. *)
Record PercentileRow : Type := mkRow {
  scenario : string;
  request_group : string;
  p50_ms : option Q;
  p90_ms : option Q;
  p95_ms : option Q;
  p99_ms : option Q
}.

Section LatencyFiles.

(** [pd.read_csv(f, header=None).iloc[:,1].astype(float).values]: the second
    column of a latency file, or [None] when reading or converting raises.
    The column holds numbers: a file with an empty cell (NaN) or an infinite
    value is outside this model. *)
Variable read_latencies : string -> option (list Q).

(** The [try ... except Exception: continue] loop: the arrays of the files
    that parse, in order. *)
Definition read_all (files : list string) : list (list Q) :=
  omap read_latencies files.

(** Lines 94-121 for one scenario of a request group: no row when no file
    parses ([if not all_vals: continue]). *)
Definition scenario_row (req scenario : string) (files : list string)
  : option PercentileRow :=
  let all_vals := read_all files in
  match all_vals with
  | [] => None
  | _ =>
      let vals_concat := concat all_vals in
      let p50 := np_percentile vals_concat 50 in
      let p90 := np_percentile vals_concat 90 in
      let p95 := np_percentile vals_concat 95 in
      let p99 := np_percentile vals_concat 99 in
      Some {| scenario := scenario;
              request_group := req;
              p50_ms := option_map (fun p => round p 3) p50;
              p90_ms := option_map (fun p => round p 3) p90;
              p95_ms := option_map (fun p => round p 3) p95;
              p99_ms := option_map (fun p => round p 3) p99 |}
  end.

(** The rows one request group adds to [percentiles_rows]. *)
Definition request_rows (req : string) (scen_map : dict (list string))
  : list PercentileRow :=
  omap (fun item => scenario_row req (fst item) (snd item)) scen_map.

(** The tail plot reads every file of the request group again, outside any
    [try]: one unreadable file raises. *)
Definition tail_reads_ok (scen_map : dict (list string)) : bool :=
  forallb (fun item =>
             forallb (fun f => match read_latencies f with
                               | Some _ => true
                               | None => false
                               end) (snd item))
          scen_map.

Definition plot_step (rows : option (list PercentileRow))
  (item : string * dict (list string)) : option (list PercentileRow) :=
  match rows with
  | None => None
  | Some rows =>
      let '(req, scen_map) := item in
      if tail_reads_ok scen_map
      then Some (rows ++ request_rows req scen_map)
      else None
  end.

(** [plot_latency_cdf]: the list [percentiles_rows] the table is written
    from, or [None] when the function raises. *)
Definition plot_latency_cdf (lat_csv_paths : list string)
  : option (list PercentileRow) :=
  match build_by_req (build_groups lat_csv_paths) with
  | None => None
  | Some by_req => fold_left plot_step by_req (Some [])
  end.

End LatencyFiles.

(** ** Grouped aggregation *)

Local Open Scope R_scope.

(** One row of the aggregate CSV, with the columns [main] requires. *)
Record BenchRow : Type := mkBenchRow {
  row_scenario : string;
  totalRequests : R;
  throughput : R;
  avgLatencyMs : R;
  p99LatencyMs : R
}.

(** pandas' grouped ['mean']: the sum of the group over its count; NaN for a
    group without values. *)
Definition sum_values (values : list R) : R := fold_left Rplus values 0.

Definition group_mean (values : list R) : option R :=
  match values with
  | [] => None
  | _ => Some (sum_values values / INR (length values))
  end.

(** pandas' grouped ['std'] (default [ddof=1]): the variance is accumulated
    in one pass (the running mean and the sum of squared differences from
    it), divided by [count - ddof], NaN when [count <= ddof]; the standard
    deviation is its square root. *)
Record VarState : Type := mkVarState {
  nobs : nat;
  run_mean : R;
  ssqdm : R
}.

Definition group_var_step (st : VarState) (val : R) : VarState :=
  let nobs' := S (nobs st) in
  let oldmean := run_mean st in
  let mean' := oldmean + (val - oldmean) / INR nobs' in
  {| nobs := nobs';
     run_mean := mean';
     ssqdm := ssqdm st + (val - mean') * (val - oldmean) |}.

Definition group_var (ddof : nat) (values : list R) : option R :=
  let st := fold_left group_var_step values
              {| nobs := 0; run_mean := 0; ssqdm := 0 |} in
  if (nobs st <=? ddof)%nat then None
  else Some (ssqdm st / (INR (nobs st) - INR ddof)).

Definition group_std (values : list R) : option R :=
  option_map sqrt (group_var 1 values).

(** The rows of [agg] in [plot_throughput_vs_requests] and of [grouped] in
    [write_results_md], for one group. *)
Record ThroughputRow : Type := mkThroughputRow {
  mean_throughput : option R;
  std_throughput : option R;
  n : nat;
  ci95 : option R
}.

Record SummaryRow : Type := mkSummaryRow {
  runs : nat;
  throughput_mean : option R;
  throughput_std : option R;
  latency_mean : option R;
  latency_std : option R;
  p99_mean : option R;
  summary_ci95 : option R
}.

Section Aggregator.

(** [scipy.stats.t.ppf(q, df)], the quantile function of Student's t. *)
Variable t_ppf : R -> R -> R.

(** [(stats.t.ppf(0.975, n-1) * std / (n**0.5)) if n > 1 else 0.0]. *)
Definition ci95_of (count : nat) (std : option R) : option R :=
  if (1 <? count)%nat
  then option_map
         (fun s => t_ppf 0.975 (INR count - 1) * s / sqrt (INR count)) std
  else Some 0.

Definition plot_throughput_agg (group : list BenchRow) : ThroughputRow :=
  let values := map throughput group in
  {| mean_throughput := group_mean values;
     std_throughput := group_std values;
     n := length values;
     ci95 := ci95_of (length values) (group_std values) |}.

Definition write_results_grouped (group : list BenchRow) : SummaryRow :=
  {| runs := length (map throughput group);
     throughput_mean := group_mean (map throughput group);
     throughput_std := group_std (map throughput group);
     latency_mean := group_mean (map avgLatencyMs group);
     latency_std := group_std (map avgLatencyMs group);
     p99_mean := group_mean (map p99LatencyMs group);
     summary_ci95 :=
       ci95_of (length (map throughput group))
               (group_std (map throughput group)) |}.

End Aggregator.

(** The estimator in the words of the design: the mean, and the square root
    of the sum of squared deviations from it over [n - 1]. *)
Definition total (values : list R) : R := fold_right Rplus 0 values.

Definition sum_sq_dev (c : R) (values : list R) : R :=
  total (map (fun x => (x - c) * (x - c)) values).

Definition sample_mean (values : list R) : R :=
  total values / INR (length values).

Definition unbiased_stddev (values : list R) : R :=
  sqrt (sum_sq_dev (sample_mean values) values / (INR (length values) - 1)).

(** ** Vocabulary of the properties *)

(** A percentile that is defined and equal, as a rational, to [v]. *)
Definition is_value (r : option Q) (v : Q) : Prop :=
  match r with
  | Some x => (x == v)%Q
  | None => False
  end.

(** The grouping key read off a file name: its first two underscore
    separated parts, when it has at least four. *)
Definition file_key (path : string) : option (string * string) :=
  let parts := split "_"%char (basename path) in
  if (length parts <? 4)%nat then None
  else Some (nth 0 parts EmptyString, nth 1 parts EmptyString).

Definition in_group (scenario req path : string) : bool :=
  match file_key path with
  | Some (s, r) => String.eqb s scenario && String.eqb r req
  | None => false
  end.

(** The files of one (scenario, request size) group, in input order. *)
Definition group_files (scenario req : string) (paths : list string)
  : list string :=
  List.filter (in_group scenario req) paths.

(** The key string [f"{scenario}_{req}"] of a file, and the files filed
    under a key string. *)
Definition key_string (scenario req : string) : string :=
  (scenario ++ "_" ++ req)%string.

Definition has_key (key path : string) : bool :=
  match file_key path with
  | Some (s, r) => String.eqb (key_string s r) key
  | None => false
  end.

(** The character occurs in the string. *)
Fixpoint has_char (c : ascii) (s : string) : bool :=
  match s with
  | EmptyString => false
  | String c' rest => Ascii.eqb c' c || has_char c rest
  end.

(** The four percentiles of a row are those of the array [merged], rounded
    to three decimals. *)
Definition row_over (row : PercentileRow) (merged : list Q) : Prop :=
  p50_ms row = option_map (fun p => round p 3) (np_percentile merged 50%Q)
  /\ p90_ms row = option_map (fun p => round p 3) (np_percentile merged 90%Q)
  /\ p95_ms row = option_map (fun p => round p 3) (np_percentile merged 95%Q)
  /\ p99_ms row = option_map (fun p => round p 3) (np_percentile merged 99%Q).

(** Two runs of one scenario and request size, three latencies each. *)
Definition two_runs : list string :=
  ["results/leader_req100_dur10_rep1_latencies.csv";
   "results/leader_req100_dur10_rep2_latencies.csv"].

Definition two_runs_row : PercentileRow :=
  {| scenario := "leader"; request_group := "req100";
     p50_ms := Some 3.500%Q; p90_ms := Some 5.500%Q;
     p95_ms := Some 5.750%Q; p99_ms := Some 5.950%Q |}.

Definition read_two_runs (path : string) : option (list Q) :=
  if String.eqb path "results/leader_req100_dur10_rep1_latencies.csv"
  then Some [1; 2; 3]%Q
  else if String.eqb path "results/leader_req100_dur10_rep2_latencies.csv"
  then Some [4; 5; 6]%Q
  else None.

(** The state of the one-pass variance after the values [seen]: their
    count, their mean, and the sum of their squares less mean times sum. *)
Definition var_state_of (st : VarState) (seen : list R) : Prop :=
  nobs st = length seen
  /\ INR (nobs st) * run_mean st = total seen
  /\ ssqdm st = total (map (fun x => x * x) seen) - run_mean st * total seen.

(** Sample data. *)
Definition one_to_ten : list Q := [1; 2; 3; 4; 5; 6; 7; 8; 9; 10]%Q.

Definition bench (scen : string) (x : R) : BenchRow :=
  {| row_scenario := scen; totalRequests := 100; throughput := x;
     avgLatencyMs := 1; p99LatencyMs := 2 |}.

Definition five_runs : list BenchRow :=
  map (bench "baseline") [90; 90; 110; 110; 100].


(** ** The curves of [plot_latency_cdf] *)

(** [np.arange(1, n + 1) / n]. *)
Definition cdf_levels (n : nat) : list Q :=
  map (fun i => inject_Z (Z.of_nat i) / inject_Z (Z.of_nat n))%Q (seq 1 n).

(** The points of [plt.plot(vals_sorted, cdf)] for one scenario. *)
Definition cdf_points (vals_concat : list Q) : list (Q * Q) :=
  let vals_sorted := sort vals_concat in
  combine vals_sorted (cdf_levels (length vals_sorted)).

(** The right end of the x axis of the tail plot, [max(1.0, xmax)] with
    [xmax] the 99.9th percentile of all values of the request group; the
    files are read outside any [try] ([None] when one read raises).  A NaN
    [xmax] loses the comparison of [max]. *)
Definition tail_xlim (read_latencies : string -> option (list Q))
  (scen_map : dict (list string)) : option Q :=
  if tail_reads_ok read_latencies scen_map then
    let all_vals_all :=
      concat (map (fun item => concat (omap read_latencies (snd item)))
                  scen_map) in
    Some match np_percentile all_vals_all 99.9%Q with
         | Some xmax => if Qle_bool xmax 1 then 1%Q else xmax
         | None => 1%Q
         end
  else None.

(** ** Vocabulary of the further properties *)

(** Two percentiles are both NaN or equal as rationals. *)
Definition same_value (x y : option Q) : Prop :=
  match x, y with
  | Some a, Some b => (a == b)%Q
  | None, None => True
  | _, _ => False
  end.

(** The grouping key of a row. *)
Definition row_key (row : PercentileRow) : string * string :=
  (scenario row, request_group row).

(** The four percentiles of a row are defined and in ascending order. *)
Definition ascending_row (row : PercentileRow) : Prop :=
  exists v50 v90 v95 v99,
    p50_ms row = Some v50 /\ p90_ms row = Some v90
    /\ p95_ms row = Some v95 /\ p99_ms row = Some v99
    /\ (v50 <= v90)%Q /\ (v90 <= v95)%Q /\ (v95 <= v99)%Q.

(** The file has a grouping key. *)
Definition keyed (path : string) : bool :=
  match file_key path with Some _ => true | None => false end.

End Plot.

(* ===================================================================== *)
(** * Properties of the interval reconstructor and the event counts       *)
(* ===================================================================== *)

Module AnalyzeMetricsProps.
Import AnalyzeMetrics.

Local Open Scope string_scope.
Local Open Scope Z_scope.
Local Open Scope list_scope.

(** ** The loop of [get_elections] *)

Lemma get_elections_loop_app (l1 l2 : list Event) st :
  get_elections_loop (l1 ++ l2) st
  = get_elections_loop l2 (get_elections_loop l1 st).
Proof. unfold get_elections_loop. apply fold_left_app. Qed.

Lemma step_other (e : Event) st :
  is_election_event e = false -> get_elections_step st e = st.
Proof.
  unfold is_election_event, is_start, is_end, get_elections_step.
  intros H. apply orb_false_elim in H as [-> ->]. now destruct st.
Qed.

(** Every emitted interval is closed. *)
Lemma loop_closed (events : list Event) :
  forall els cur,
    Forall (fun el => closed el = true) els ->
    Forall (fun el => closed el = true)
           (fst (get_elections_loop events (els, cur))).
Proof.
  induction events as [|e events IH]; intros els cur Hels; simpl; [exact Hels|].
  unfold get_elections_step.
  destruct (String.eqb (event_type e) "ELECTION_START"); [now apply IH|].
  destruct (String.eqb (event_type e) "ELECTION_END"); [|now apply IH].
  destruct cur as [c|]; [|now apply IH].
  apply IH. apply Forall_app. split; [exact Hels|].
  constructor; [reflexivity|constructor].
Qed.

Lemma loop_count (events : list Event) :
  forall els cur,
    (length (fst (get_elections_loop events (els, cur)))
     + pending (snd (get_elections_loop events (els, cur)))
     <= length els + pending cur + length (List.filter is_start events))%nat.
Proof.
  unfold is_start.
  induction events as [|e events IH]; intros els cur; simpl; [lia|].
  unfold get_elections_step.
  destruct (String.eqb (event_type e) "ELECTION_START").
  - specialize (IH els (Some {| start := e; end_ := None |})).
    simpl in *. destruct cur; simpl; lia.
  - destruct (String.eqb (event_type e) "ELECTION_END"); [|apply IH].
    destruct cur as [c|]; [|apply IH].
    specialize (IH (els ++ [{| start := start c; end_ := Some e |}]) None).
    rewrite length_app in IH. simpl in *. lia.
Qed.

Lemma loop_ordered (events : list Event) :
  forall els cur,
    nondecreasing events ->
    Forall ordered els ->
    (forall c, cur = Some c ->
       Forall (fun e' => timestamp (start c) <= timestamp e') events) ->
    Forall ordered (fst (get_elections_loop events (els, cur))).
Proof.
  induction events as [|e events IH]; intros els cur Hnd Hels Hcur; simpl;
    [exact Hels|].
  destruct Hnd as [Hhd Hnd].
  unfold get_elections_step.
  destruct (String.eqb (event_type e) "ELECTION_START").
  { apply IH; [exact Hnd|exact Hels|].
    intros c [= <-]. exact Hhd. }
  destruct (String.eqb (event_type e) "ELECTION_END").
  2:{ apply IH; [exact Hnd|exact Hels|].
      intros c Hc. specialize (Hcur c Hc). now inversion Hcur. }
  destruct cur as [c|].
  2:{ apply IH; [exact Hnd|exact Hels|]. intros c [=]. }
  apply IH; [exact Hnd| |intros c' [=]].
  apply Forall_app. split; [exact Hels|].
  constructor; [|constructor].
  intros e' [= <-]. simpl.
  specialize (Hcur c eq_refl). now inversion Hcur.
Qed.

(** ** The loop of [calculate_election_latencies] *)

Lemma latencies_fold (els : list Election) :
  forall acc,
    fold_left latencies_step els acc
    = acc ++ omap election_latency els.
Proof.
  induction els as [|el els IH]; intros acc; simpl.
  - now rewrite app_nil_r.
  - rewrite IH. unfold latencies_step, election_latency.
    destruct (end_ el); simpl; [now rewrite <- app_assoc|reflexivity].
Qed.

Lemma latencies_of_omap (els : list Election) :
  latencies_of els = omap election_latency els.
Proof. unfold latencies_of. now rewrite latencies_fold. Qed.

(** ** The counts of [get_event_counts] *)

Lemma sum_counts_step (counts : gmap string nat) (e : Event) :
  sum_counts (count_event counts e) = S (sum_counts counts).
Proof.
  unfold sum_counts, count_event.
  destruct (counts !! event_type e) as [c|] eqn:Hk; simpl.
  - rewrite <- (insert_delete_eq counts).
    rewrite map_fold_insert_L; [| intros; lia | apply lookup_delete_eq].
    rewrite (map_fold_delete_L _ _ (event_type e) c counts);
      [lia | intros; lia | exact Hk].
  - rewrite map_fold_insert_L; [lia | intros; lia | exact Hk].
Qed.

Lemma sum_counts_fold (events : list Event) :
  forall counts,
    sum_counts (fold_left count_event events counts)
    = (length events + sum_counts counts)%nat.
Proof.
  induction events as [|e events IH]; intros counts; simpl; [reflexivity|].
  rewrite IH, sum_counts_step. lia.
Qed.

Lemma count_fold_lookup (ty : string) (events : list Event) :
  forall counts,
    default 0%nat (fold_left count_event events counts !! ty)
    = (occurrences ty events + default 0%nat (counts !! ty))%nat.
Proof.
  unfold occurrences.
  induction events as [|e events IH]; intros counts; simpl; [reflexivity|].
  rewrite IH. unfold count_event.
  destruct (String.eqb_spec (event_type e) ty) as [->|Hne]; simpl.
  - rewrite lookup_insert_eq. simpl. lia.
  - rewrite lookup_insert_ne by exact Hne. reflexivity.
Qed.

Lemma step_start (e : Event) st :
  is_start e = true ->
  get_elections_step st e = (fst st, Some {| start := e; end_ := None |}).
Proof.
  unfold is_start, get_elections_step. intros ->. now destruct st.
Qed.

Lemma loop_others (mid : list Event) st :
  Forall (fun e => is_election_event e = false) mid ->
  get_elections_loop mid st = st.
Proof.
  induction 1 as [|e mid He _ IH]; simpl; [reflexivity|].
  now rewrite (step_other e st He).
Qed.

Lemma loop_filter (events : list Event) :
  forall st,
    get_elections_loop events st
    = get_elections_loop (List.filter is_election_event events) st.
Proof.
  induction events as [|e events IH]; intros st; simpl; [reflexivity|].
  destruct (is_election_event e) eqn:He; simpl.
  - apply IH.
  - rewrite (step_other e st He). apply IH.
Qed.

Lemma get_elections_closed (events : list Event) :
  Forall (fun el => closed el = true) (get_elections events).
Proof. unfold get_elections. apply loop_closed. constructor. Qed.

Lemma filter_closed_id (els : list Election) :
  Forall (fun el => closed el = true) els -> List.filter closed els = els.
Proof.
  induction 1 as [|el els Hel _ IH]; simpl; [reflexivity|].
  now rewrite Hel, IH.
Qed.

Lemma omap_latency_closed (els : list Election) :
  Forall (fun el => closed el = true) els ->
  map election_latency els = map Some (omap election_latency els).
Proof.
  induction 1 as [|el els Hel _ IH]; simpl; [reflexivity|].
  destruct (election_latency el) as [q|] eqn:Hq; simpl.
  - now rewrite IH.
  - unfold closed in Hel. unfold election_latency in Hq.
    destruct (end_ el); discriminate.
Qed.

Lemma omap_latency_nonneg (els : list Election) :
  Forall ordered els ->
  Forall (fun l => (0 <= l)%Q) (omap election_latency els).
Proof.
  induction 1 as [|el els Hel _ IH]; simpl; [constructor|].
  destruct (election_latency el) as [q|] eqn:Hq; simpl; [|exact IH].
  constructor; [|exact IH].
  unfold election_latency in Hq.
  destruct (end_ el) as [e|] eqn:He; [|discriminate].
  injection Hq as <-. specialize (Hel e He).
  unfold latency_ms, Qle. simpl. lia.
Qed.

Lemma omap_latency_filter (els : list Election) :
  omap election_latency els
  = omap election_latency (List.filter closed els).
Proof.
  induction els as [|el els IH]; [reflexivity|].
  assert (Hc : closed el = match election_latency el with
                           | Some _ => true
                           | None => false
                           end).
  { unfold closed, election_latency. now destruct (end_ el). }
  simpl. rewrite Hc.
  destruct (election_latency el) as [q|] eqn:Hq; simpl; [|exact IH].
  rewrite Hq. f_equal. exact IH.
Qed.

Lemma is_end_not_start (e : Event) : is_end e = true -> is_start e = false.
Proof.
  unfold is_end, is_start. intros H. apply String.eqb_eq in H.
  now rewrite H.
Qed.

Lemma step_end (e : Event) els cur :
  is_end e = true ->
  get_elections_step (els, cur) e
  = match cur with
    | Some c => (els ++ [ {| start := start c; end_ := Some e |} ], None)
    | None => (els, None)
    end.
Proof.
  intros He. pose proof (is_end_not_start e He) as Hs.
  unfold is_end, is_start in *. unfold get_elections_step.
  rewrite Hs, He. now destruct cur.
Qed.

Lemma loop_snoc (events : list Event) (x : Event) st :
  get_elections_loop (events ++ [x]) st
  = get_elections_step (get_elections_loop events st) x.
Proof. now rewrite get_elections_loop_app. Qed.

Lemma event_cases (x : Event) :
  is_start x = true
  \/ (is_start x = false /\ is_end x = true)
  \/ is_election_event x = false.
Proof.
  unfold is_election_event.
  destruct (is_start x); [now left|]. destruct (is_end x); auto.
Qed.

(** The intervals already emitted stay: the loop only appends. *)
Lemma loop_appends (events : list Event) :
  forall els cur,
    get_elections_loop events (els, cur)
    = (els ++ fst (get_elections_loop events ([], cur)),
       snd (get_elections_loop events ([], cur))).
Proof.
  induction events as [|e events IH]; intros els cur.
  - simpl. now rewrite app_nil_r.
  - change (get_elections_loop (e :: events) ?st)
      with (get_elections_loop events (get_elections_step st e)).
    destruct (event_cases e) as [Hs|[[Hs He]|Ho]].
    + rewrite !(step_start e _ Hs). simpl. apply IH.
    + rewrite !(step_end e _ _ He).
      destruct cur as [c|]; [|apply IH].
      rewrite IH.
      rewrite (IH ([] ++ [{| start := start c; end_ := Some e |}]) None).
      simpl. now rewrite <- app_assoc.
    + rewrite !(step_other e _ Ho). apply IH.
Qed.

(** ** The claims *)

(** C1, as the code has it: on an event stream whose timestamps never
    decrease, every interval emitted by [get_elections] has an end timestamp
    greater than or equal to its start timestamp, and every election latency
    is non-negative.  On any stream, an ELECTION_START followed by an
    ELECTION_END with no other START or END between them is emitted as an
    interval whatever the two timestamps, with the latency end - start: a
    pair whose end is earlier than its start is kept, not discarded. *)
Theorem ordered_stream_gives_ordered_intervals (events : list Event) :
  (nondecreasing events ->
   Forall ordered (get_elections events)
   /\ Forall (fun l => (0 <= l)%Q) (calculate_election_latencies events))
  /\ (forall pre s mid e post,
        events = pre ++ s :: mid ++ e :: post ->
        is_start s = true ->
        Forall (fun x => is_election_event x = false) mid ->
        is_end e = true ->
        In {| start := s; end_ := Some e |} (get_elections events)
        /\ In (latency_ms (timestamp s) (timestamp e))
              (calculate_election_latencies events)).
Proof.
  split.
  - intros Hnd.
    assert (Hord : Forall ordered (get_elections events)).
    { unfold get_elections. apply loop_ordered;
        [exact Hnd | constructor | intros c [=]]. }
    split; [exact Hord|].
    unfold calculate_election_latencies. rewrite latencies_of_omap.
    now apply omap_latency_nonneg.
  - intros pre s mid e post Hev Hs Hmid He.
    assert (Hin : In {| start := s; end_ := Some e |} (get_elections events)).
    { unfold get_elections. rewrite Hev, get_elections_loop_app.
      change (get_elections_loop (s :: mid ++ e :: post) ?st)
        with (get_elections_loop (mid ++ e :: post)
                (get_elections_step st s)).
      rewrite get_elections_loop_app, (loop_others mid _ Hmid).
      change (get_elections_loop (e :: post) ?st)
        with (get_elections_loop post (get_elections_step st e)).
      rewrite (step_start s _ Hs), (step_end e _ _ He), loop_appends.
      simpl. apply in_or_app. left. apply in_or_app. right. now left. }
    split; [exact Hin|].
    unfold calculate_election_latencies. rewrite latencies_of_omap.
    apply list_elem_of_In, list_elem_of_omap.
    exists {| start := s; end_ := Some e |}.
    split; [now apply list_elem_of_In|reflexivity].
Qed.

Lemma ordered_stream_gives_ordered_intervals_witness :
  (Forall ordered
     (get_elections [ev 1000 "ELECTION_START"; ev 1500 "TERM_CHANGE";
                     ev 4000 "ELECTION_END"])
   /\ Forall (fun l => (0 <= l)%Q)
        (calculate_election_latencies
           [ev 1000 "ELECTION_START"; ev 1500 "TERM_CHANGE";
            ev 4000 "ELECTION_END"]))
  /\ In {| start := ev 10000 "ELECTION_START";
           end_ := Some (ev 5000 "ELECTION_END") |}
        (get_elections [ev 10000 "ELECTION_START"; ev 5000 "ELECTION_END"])
  /\ In (latency_ms 10000 5000)
        (calculate_election_latencies
           [ev 10000 "ELECTION_START"; ev 5000 "ELECTION_END"]).
Proof.
  split.
  - apply (proj1 (ordered_stream_gives_ordered_intervals
                    [ev 1000 "ELECTION_START"; ev 1500 "TERM_CHANGE";
                     ev 4000 "ELECTION_END"])).
    simpl. repeat split; repeat constructor; simpl; lia.
  - apply (proj2 (ordered_stream_gives_ordered_intervals
                    [ev 10000 "ELECTION_START"; ev 5000 "ELECTION_END"])
             [] (ev 10000 "ELECTION_START") []
             (ev 5000 "ELECTION_END") []).
    + reflexivity.
    + reflexivity.
    + constructor.
    + reflexivity.
Defined.

(** C1 fails as stated: a START at 10 ms followed by an END stamped 5 ms is
    emitted as an interval whose end is earlier than its start, and its
    latency of -5 ms is reported. *)
Lemma backwards_pair_is_kept :
  get_elections [ev 10000 "ELECTION_START"; ev 5000 "ELECTION_END"]
  = [ {| start := ev 10000 "ELECTION_START";
         end_ := Some (ev 5000 "ELECTION_END") |} ]
  /\ ~ Forall ordered
        (get_elections [ev 10000 "ELECTION_START"; ev 5000 "ELECTION_END"])
  /\ calculate_election_latencies
       [ev 10000 "ELECTION_START"; ev 5000 "ELECTION_END"]
     = [(-5000 # 1000)%Q].
Proof.
  split; [reflexivity|]. split; [|reflexivity].
  intros H. inversion H as [|el els Hel _]; subst.
  specialize (Hel (ev 5000 "ELECTION_END") eq_refl). simpl in Hel. lia.
Qed.

(** C2, as the code has it: an interval still open when the stream ends, or
    abandoned when a new ELECTION_START arrives, leaves no trace in the
    output of [get_elections]: every emitted interval has its end present,
    and deleting the START of such an interval changes nothing.  The latency
    loop skips any interval whose end is absent. *)
Theorem open_intervals_are_dropped (events : list Event) :
  Forall (fun el => closed el = true) (get_elections events)
  /\ (forall s mid,
        is_start s = true ->
        Forall (fun e => is_election_event e = false) mid ->
        get_elections (events ++ s :: mid) = get_elections (events ++ mid))
  /\ (forall s mid s' rest,
        is_start s = true ->
        Forall (fun e => is_election_event e = false) mid ->
        is_start s' = true ->
        get_elections (events ++ s :: mid ++ s' :: rest)
        = get_elections (events ++ mid ++ s' :: rest))
  /\ (forall els, latencies_of els = latencies_of (List.filter closed els)).
Proof.
  split; [apply get_elections_closed|].
  split; [|split].
  - intros s mid Hs Hmid. unfold get_elections.
    rewrite !get_elections_loop_app.
    change (get_elections_loop (s :: mid) ?st)
      with (get_elections_loop mid (get_elections_step st s)).
    rewrite !(loop_others mid _ Hmid). now rewrite (step_start s _ Hs).
  - intros s mid s' rest Hs Hmid Hs'. unfold get_elections.
    rewrite !get_elections_loop_app.
    change (get_elections_loop (s :: mid ++ s' :: rest) ?st)
      with (get_elections_loop (mid ++ s' :: rest) (get_elections_step st s)).
    rewrite !get_elections_loop_app, !(loop_others mid _ Hmid).
    change (get_elections_loop (s' :: rest) ?st)
      with (get_elections_loop rest (get_elections_step st s')).
    rewrite (step_start s _ Hs). now rewrite !(step_start s' _ Hs').
  - intros els. rewrite !latencies_of_omap. apply omap_latency_filter.
Qed.

Lemma open_intervals_are_dropped_witness :
  get_elections ([ev 1 "ELECTION_START"; ev 2 "ELECTION_END"]
                 ++ ev 3 "ELECTION_START" :: [ev 4 "WRITE_REQUEST"])
  = get_elections ([ev 1 "ELECTION_START"; ev 2 "ELECTION_END"]
                   ++ [ev 4 "WRITE_REQUEST"])
  /\ get_elections ([ev 1 "TERM_CHANGE"]
                    ++ ev 2 "ELECTION_START"
                       :: [ev 3 "READ_REQUEST"]
                          ++ ev 4 "ELECTION_START" :: [ev 5 "ELECTION_END"])
     = get_elections ([ev 1 "TERM_CHANGE"]
                      ++ [ev 3 "READ_REQUEST"]
                         ++ ev 4 "ELECTION_START" :: [ev 5 "ELECTION_END"]).
Proof.
  split.
  - apply (proj1 (proj2 (open_intervals_are_dropped
                           [ev 1 "ELECTION_START"; ev 2 "ELECTION_END"]))).
    + reflexivity.
    + repeat constructor.
  - apply (proj1 (proj2 (proj2 (open_intervals_are_dropped
                                  [ev 1 "TERM_CHANGE"])))).
    + reflexivity.
    + repeat constructor.
    + reflexivity.
Defined.

(** C2 fails as stated: after a single ELECTION_START the output holds no
    open interval, it is empty; and of two STARTs followed by an END only
    the second START shows up, in a closed interval. *)
Lemma open_interval_not_emitted :
  get_elections [ev 1 "ELECTION_START"] = []
  /\ ~ (exists el, In el (get_elections [ev 1 "ELECTION_START"])
                   /\ end_ el = None)
  /\ get_elections [ev 1 "ELECTION_START"; ev 2 "ELECTION_START";
                    ev 3 "ELECTION_END"]
     = [ {| start := ev 2 "ELECTION_START";
            end_ := Some (ev 3 "ELECTION_END") |} ].
Proof.
  split; [reflexivity|]. split; [|reflexivity].
  intros [el [Hin _]]. exact Hin.
Qed.

(** C3, as the code has it: [calculate_election_latencies] returns, in
    order, the latency of every interval emitted by [get_elections],
    whatever its sign; nothing is excluded and nothing is counted. *)
Theorem every_latency_is_reported (events : list Event) :
  map Some (calculate_election_latencies events)
  = map election_latency (get_elections events)
  /\ length (calculate_election_latencies events)
     = length (get_elections events).
Proof.
  assert (H : map Some (calculate_election_latencies events)
              = map election_latency (get_elections events)).
  { unfold calculate_election_latencies. rewrite latencies_of_omap.
    symmetry. apply omap_latency_closed, get_elections_closed. }
  split; [exact H|].
  apply (f_equal (@length _)) in H. now rewrite !length_map in H.
Qed.

(** C3 fails as stated: an END with the timestamp of its START gives a
    latency of zero, and one with an earlier timestamp a negative latency;
    both are in the returned list. *)
Lemma nonpositive_latency_is_included :
  calculate_election_latencies
    [ev 7000 "ELECTION_START"; ev 7000 "ELECTION_END";
     ev 9000 "ELECTION_START"; ev 8000 "ELECTION_END"]
  = [(0 # 1000)%Q; (-1000 # 1000)%Q]
  /\ ~ Forall (fun l => (0 < l)%Q)
         (calculate_election_latencies
            [ev 7000 "ELECTION_START"; ev 7000 "ELECTION_END";
             ev 9000 "ELECTION_START"; ev 8000 "ELECTION_END"]).
Proof.
  split; [reflexivity|].
  intros H. inversion H as [|l ls Hl _]; subst.
  unfold Qlt in Hl. simpl in Hl. lia.
Qed.

(** C8: the closed intervals emitted by [get_elections] are at most as many
    as the ELECTION_START events of the stream; a lone ELECTION_END gives no
    interval. *)
Theorem closed_intervals_bounded_by_starts (events : list Event) :
  (length (List.filter closed (get_elections events))
   <= length (List.filter is_start events))%nat
  /\ (forall e, event_type e = "ELECTION_END" -> get_elections [e] = []).
Proof.
  split.
  - rewrite filter_closed_id by apply get_elections_closed.
    unfold get_elections.
    pose proof (loop_count events [] None) as H. simpl in H. lia.
  - intros e He. unfold get_elections, get_elections_loop. simpl.
    unfold get_elections_step. now rewrite He.
Qed.

Lemma closed_intervals_bounded_by_starts_witness :
  get_elections [ev 5 "ELECTION_END"] = [].
Proof.
  apply (proj2 (closed_intervals_bounded_by_starts [])). reflexivity.
Defined.

(** C9: the counts of [get_event_counts] sum to the number of events, each
    event type being counted as often as it occurs, so that in the report of
    [export_json_report] the values of [event_counts] sum to
    [total_events]. *)
Theorem event_counts_sum_to_total (events : list Event) :
  sum_counts (get_event_counts events) = length events
  /\ (forall ty,
        default 0%nat (get_event_counts events !! ty) = occurrences ty events)
  /\ sum_counts (event_counts (export_json_report events))
     = total_events (export_json_report events).
Proof.
  assert (H : sum_counts (get_event_counts events) = length events).
  { unfold get_event_counts. rewrite sum_counts_fold.
    unfold sum_counts. rewrite map_fold_empty. lia. }
  split; [exact H|]. split; [|exact H].
  intros ty. unfold get_event_counts. rewrite count_fold_lookup.
  rewrite lookup_empty. simpl. lia.
Qed.

(** C10: the output of [get_elections] depends only on the subsequence of
    ELECTION_START and ELECTION_END events: two streams with the same such
    subsequence give the same intervals. *)
Theorem get_elections_ignores_other_events (events events' : list Event) :
  List.filter is_election_event events
  = List.filter is_election_event events' ->
  get_elections events = get_elections events'.
Proof.
  intros H. unfold get_elections.
  rewrite (loop_filter events), (loop_filter events'). now rewrite H.
Qed.

Lemma get_elections_ignores_other_events_witness :
  get_elections [ev 1 "TERM_CHANGE"; ev 2 "ELECTION_START";
                 ev 3 "WRITE_REQUEST"; ev 4 "ELECTION_END"]
  = get_elections [ev 2 "ELECTION_START"; ev 4 "ELECTION_END";
                   ev 5 "LOG_REPLICATION_SUCCESS"].
Proof.
  apply get_elections_ignores_other_events. reflexivity.
Defined.


(* ===================================================================== *)
(** ** Further properties of the interval reconstructor                   *)
(* ===================================================================== *)

Section Reconstructor.

Lemma loop_alternating (pairs : list (Event * Event)) :
  Forall (fun p => is_start (fst p) = true /\ is_end (snd p) = true) pairs ->
  forall els,
    get_elections_loop (alternating pairs) (els, None)
    = (els ++ map paired pairs, None).
Proof.
  induction 1 as [|[s e] pairs [Hs He] _ IH]; intros els.
  - simpl. now rewrite app_nil_r.
  - simpl in Hs, He.
    change (get_elections_loop (alternating ((s, e) :: pairs)) (els, None))
      with (get_elections_loop (alternating pairs)
              (get_elections_step (get_elections_step (els, None) s) e)).
    rewrite (step_start s _ Hs). simpl fst.
    rewrite (step_end e _ _ He). rewrite IH. simpl.
    now rewrite <- app_assoc.
Qed.

Lemma paired_in_snoc (events : list Event) (x : Event) (el : Election) :
  paired_in events el -> paired_in (events ++ [x]) el.
Proof.
  intros (e & pre & mid & post & He & Hev & Hs & Hend & Hmid).
  exists e, pre, mid, (post ++ [x]). repeat split; try assumption.
  rewrite Hev. rewrite <- !app_assoc. simpl. rewrite <- !app_assoc.
  reflexivity.
Qed.

(** What the loop holds after a stream: the emitted intervals are pairs of
    the stream, and the pending interval is a START followed by no START
    and no END. *)
Lemma loop_paired (events : list Event) :
  Forall (paired_in events) (fst (get_elections_loop events ([], None)))
  /\ (forall c, snd (get_elections_loop events ([], None)) = Some c ->
        end_ c = None /\ is_start (start c) = true
        /\ exists pre mid,
             events = pre ++ start c :: mid
             /\ Forall (fun x => is_election_event x = false) mid).
Proof.
  induction events as [|x events [IHels IHcur]] using rev_ind.
  - simpl. split; [constructor|discriminate].
  - rewrite loop_snoc.
    destruct (get_elections_loop events ([], None)) as [els cur].
    simpl in IHels, IHcur.
    assert (Hels : Forall (paired_in (events ++ [x])) els).
    { eapply List.Forall_impl; [|exact IHels].
      intros el. apply paired_in_snoc. }
    destruct (event_cases x) as [Hs|[[Hs He]|Ho]].
    + rewrite (step_start x _ Hs). simpl. split; [exact Hels|].
      intros c [= <-]. simpl. repeat split; [exact Hs|].
      exists events, []. split; [reflexivity|constructor].
    + rewrite (step_end x _ _ He). destruct cur as [c|]; simpl.
      * split; [|discriminate].
        apply Forall_app. split; [exact Hels|].
        constructor; [|constructor].
        destruct (IHcur c eq_refl) as (_ & Hc & pre & mid & Hev & Hmid).
        exists x, pre, mid, []. simpl. repeat split; try assumption.
        rewrite Hev. now rewrite <- app_assoc.
      * split; [exact Hels|discriminate].
    + rewrite (step_other x _ Ho). simpl. split; [exact Hels|].
      intros c Hc.
      destruct (IHcur c Hc) as (Hend & Hst & pre & mid & Hev & Hmid).
      repeat split; try assumption.
      exists pre, (mid ++ [x]). split.
      * rewrite Hev. now rewrite <- app_assoc.
      * apply Forall_app. split; [exact Hmid|]. now constructor.
Qed.

Lemma idle_no_pending (events : list Event) :
  idle_after events ->
  snd (get_elections_loop events ([], None)) = None.
Proof.
  intros [Hall|(before & e & mid & -> & He & Hmid)].
  - now rewrite (loop_others events _ Hall).
  - rewrite get_elections_loop_app.
    change (get_elections_loop (e :: mid) ?st)
      with (get_elections_loop mid (get_elections_step st e)).
    rewrite (loop_others mid _ Hmid).
    destruct (get_elections_loop before ([], None)) as [els cur].
    rewrite (step_end e _ _ He). now destruct cur.
Qed.

Lemma no_pending_idle (events : list Event) :
  snd (get_elections_loop events ([], None)) = None ->
  idle_after events.
Proof.
  induction events as [|x events IH] using rev_ind.
  - intros _. left. constructor.
  - rewrite loop_snoc.
    destruct (get_elections_loop events ([], None)) as [els cur].
    simpl in IH.
    destruct (event_cases x) as [Hs|[[Hs He]|Ho]].
    + rewrite (step_start x _ Hs). discriminate.
    + intros _. right. exists events, x, []. repeat split; [exact He|].
      constructor.
    + rewrite (step_other x _ Ho). simpl. intros Hc.
      destruct (IH Hc) as [Hall|(before & e & mid & -> & He & Hmid)].
      * left. apply Forall_app. split; [exact Hall|]. now constructor.
      * right. exists before, e, (mid ++ [x]). split; [|split].
        -- now rewrite <- app_assoc.
        -- exact He.
        -- apply Forall_app. split; [exact Hmid|]. now constructor.
Qed.

Lemma loop_count_ends (events : list Event) :
  forall els cur,
    (length (fst (get_elections_loop events (els, cur)))
     <= length els + length (List.filter is_end events))%nat.
Proof.
  induction events as [|e events IH]; intros els cur; [simpl; lia|].
  change (get_elections_loop (e :: events) ?st)
    with (get_elections_loop events (get_elections_step st e)).
  simpl List.filter.
  destruct (event_cases e) as [Hs|[[Hs He]|Ho]].
  - rewrite (step_start e _ Hs). simpl.
    specialize (IH els (Some {| start := e; end_ := None |})).
    destruct (is_end e); simpl; lia.
  - rewrite (step_end e _ _ He), He. destruct cur as [c|].
    + specialize (IH (els ++ [{| start := start c; end_ := Some e |}]) None).
      rewrite length_app in IH. simpl in *. lia.
    + specialize (IH els None). simpl. lia.
  - rewrite (step_other e _ Ho). specialize (IH els cur).
    destruct (is_end e); simpl; lia.
Qed.

(** N START/END pairs in a row give exactly N intervals, the i-th made of
    the i-th pair, and the latencies of the pairs in order. *)
Theorem alternating_pairs_all_emitted (pairs : list (Event * Event)) :
  Forall (fun p => is_start (fst p) = true /\ is_end (snd p) = true) pairs ->
  get_elections (alternating pairs) = map paired pairs
  /\ length (get_elections (alternating pairs)) = length pairs
  /\ calculate_election_latencies (alternating pairs)
     = map (fun p => latency_ms (timestamp (fst p)) (timestamp (snd p)))
           pairs.
Proof.
  intros H.
  assert (Hg : get_elections (alternating pairs) = map paired pairs).
  { unfold get_elections. now rewrite (loop_alternating pairs H). }
  split; [exact Hg|]. split; [now rewrite Hg, length_map|].
  unfold calculate_election_latencies. rewrite Hg, latencies_of_omap.
  clear. induction pairs as [|p pairs IH]; [reflexivity|].
  simpl. f_equal. exact IH.
Qed.

Lemma alternating_pairs_all_emitted_witness :
  get_elections
    (alternating [(ev 1000 "ELECTION_START", ev 3000 "ELECTION_END");
                  (ev 5000 "ELECTION_START", ev 5500 "ELECTION_END")])
  = map paired [(ev 1000 "ELECTION_START", ev 3000 "ELECTION_END");
                (ev 5000 "ELECTION_START", ev 5500 "ELECTION_END")].
Proof.
  apply (alternating_pairs_all_emitted
           [(ev 1000 "ELECTION_START", ev 3000 "ELECTION_END");
            (ev 5000 "ELECTION_START", ev 5500 "ELECTION_END")]).
  repeat constructor.
Defined.

(** Every interval of [get_elections] is an ELECTION_START of the stream
    with the ELECTION_END that follows it, no other START or END lying
    between the two. *)
Theorem intervals_pair_adjacent_events (events : list Event) :
  Forall (paired_in events) (get_elections events).
Proof. unfold get_elections. apply loop_paired. Qed.

(** An ELECTION_END that arrives while no interval is pending, that is
    when the loop's [current_election] is the empty dict (no START or END
    came before, or the last of them was an END), is ignored: the output is
    the same without it, and has fewer intervals than the stream has END
    events. *)
Theorem unmatched_end_is_ignored (pre rest : list Event) (e : Event) :
  (idle_after pre <-> snd (get_elections_loop pre ([], None)) = None)
  /\ (idle_after pre -> is_end e = true ->
      get_elections (pre ++ e :: rest) = get_elections (pre ++ rest)
      /\ (length (get_elections (pre ++ e :: rest))
          < length (List.filter is_end (pre ++ e :: rest)))%nat).
Proof.
  split; [split; [apply idle_no_pending|apply no_pending_idle]|].
  intros Hidle He.
  assert (Hloop : get_elections_loop (pre ++ e :: rest) ([], None)
                  = get_elections_loop (pre ++ rest) ([], None)).
  { rewrite !get_elections_loop_app.
    change (get_elections_loop (e :: rest) ?st)
      with (get_elections_loop rest (get_elections_step st e)).
    pose proof (idle_no_pending pre Hidle) as Hp.
    destruct (get_elections_loop pre ([], None)) as [els cur].
    simpl in Hp. subst cur. now rewrite (step_end e _ _ He). }
  unfold get_elections. rewrite Hloop. split; [reflexivity|].
  pose proof (loop_count_ends (pre ++ rest) [] None) as Hc. simpl in Hc.
  rewrite !List.filter_app in *. simpl. rewrite He.
  rewrite !length_app in *. simpl. lia.
Qed.

Lemma unmatched_end_is_ignored_witness :
  get_elections ([ev 1 "ELECTION_START"; ev 2 "ELECTION_END"]
                 ++ ev 3 "ELECTION_END" :: [ev 4 "ELECTION_START"])
  = get_elections ([ev 1 "ELECTION_START"; ev 2 "ELECTION_END"]
                   ++ [ev 4 "ELECTION_START"])
  /\ get_elections ([ev 1 "TERM_CHANGE"]
                    ++ ev 2 "ELECTION_END" :: [ev 3 "ELECTION_START"])
     = get_elections ([ev 1 "TERM_CHANGE"] ++ [ev 3 "ELECTION_START"]).
Proof.
  split.
  - apply (proj2 (unmatched_end_is_ignored
                    [ev 1 "ELECTION_START"; ev 2 "ELECTION_END"]
                    [ev 4 "ELECTION_START"] (ev 3 "ELECTION_END"))).
    + right. exists [ev 1 "ELECTION_START"], (ev 2 "ELECTION_END"), [].
      repeat split. constructor.
    + reflexivity.
  - apply (proj2 (unmatched_end_is_ignored
                    [ev 1 "TERM_CHANGE"]
                    [ev 3 "ELECTION_START"] (ev 2 "ELECTION_END"))).
    + left. repeat constructor.
    + reflexivity.
Defined.

(** Intervals are at most as many as the ELECTION_END events, and appending
    events only appends intervals; a stream cut where no interval is
    pending, that is where the loop's [current_election] is the empty dict,
    can be analysed in two parts. *)
Theorem intervals_compose (events more : list Event) :
  (length (get_elections events)
   <= length (List.filter is_end events))%nat
  /\ (exists tail, get_elections (events ++ more)
                   = get_elections events ++ tail)
  /\ (idle_after events <->
      snd (get_elections_loop events ([], None)) = None)
  /\ (idle_after events ->
      get_elections (events ++ more)
      = get_elections events ++ get_elections more).
Proof.
  split; [|split; [|split]].
  - pose proof (loop_count_ends events [] None) as H. exact H.
  - unfold get_elections. rewrite get_elections_loop_app.
    destruct (get_elections_loop events ([], None)) as [els cur].
    rewrite loop_appends. simpl. eauto.
  - split; [apply idle_no_pending|apply no_pending_idle].
  - intros Hidle. unfold get_elections. rewrite get_elections_loop_app.
    pose proof (idle_no_pending events Hidle) as Hp.
    destruct (get_elections_loop events ([], None)) as [els cur].
    simpl in Hp. subst cur. rewrite loop_appends. reflexivity.
Qed.

Lemma intervals_compose_witness :
  get_elections ([ev 1 "ELECTION_START"; ev 2 "ELECTION_END";
                  ev 3 "TERM_CHANGE"]
                 ++ [ev 4 "ELECTION_START"; ev 5 "ELECTION_END"])
  = get_elections [ev 1 "ELECTION_START"; ev 2 "ELECTION_END";
                   ev 3 "TERM_CHANGE"]
    ++ get_elections [ev 4 "ELECTION_START"; ev 5 "ELECTION_END"]
  /\ get_elections ([ev 1 "WRITE_REQUEST"]
                    ++ [ev 4 "ELECTION_START"; ev 5 "ELECTION_END"])
     = get_elections [ev 1 "WRITE_REQUEST"]
       ++ get_elections [ev 4 "ELECTION_START"; ev 5 "ELECTION_END"].
Proof.
  split.
  - apply (proj2 (proj2 (proj2 (intervals_compose
                         [ev 1 "ELECTION_START"; ev 2 "ELECTION_END";
                          ev 3 "TERM_CHANGE"]
                         [ev 4 "ELECTION_START"; ev 5 "ELECTION_END"])))).
    right. exists [ev 1 "ELECTION_START"], (ev 2 "ELECTION_END"),
      [ev 3 "TERM_CHANGE"].
    repeat split. repeat constructor.
  - apply (proj2 (proj2 (proj2 (intervals_compose
                         [ev 1 "WRITE_REQUEST"]
                         [ev 4 "ELECTION_START"; ev 5 "ELECTION_END"])))).
    left. repeat constructor.
Defined.

End Reconstructor.


(* ===================================================================== *)
(** ** Further properties of the counts, the report and the summary       *)
(* ===================================================================== *)

Section Report.

Lemma sum_counts_insert (counts : gmap string nat) (k : string) (v : nat) :
  (sum_counts (<[k:=v]> counts) + default 0%nat (counts !! k)
   = v + sum_counts counts)%nat.
Proof.
  unfold sum_counts.
  destruct (counts !! k) as [c|] eqn:Hk; simpl.
  - rewrite <- (insert_delete_eq counts).
    rewrite map_fold_insert_L; [| intros; lia | apply lookup_delete_eq].
    rewrite (map_fold_delete_L _ _ k c counts);
      [lia | intros; lia | exact Hk].
  - rewrite map_fold_insert_L; [lia | intros; lia | exact Hk].
Qed.

Lemma buckets_lookup (p : string -> bool) (counts : gmap string nat)
  (k : string) :
  p k = true -> buckets p counts !! k = counts !! k.
Proof.
  intros Hp. unfold buckets.
  destruct (counts !! k) as [c|] eqn:Hk.
  - now apply map_lookup_filter_Some_2.
  - apply map_lookup_filter_None_2. now left.
Qed.

Lemma buckets_step (p : string -> bool) (counts : gmap string nat)
  (e : Event) :
  sum_counts (buckets p (count_event counts e))
  = ((if p (event_type e) then 1 else 0)%nat
     + sum_counts (buckets p counts))%nat.
Proof.
  unfold count_event. destruct (p (event_type e)) eqn:Hp.
  - unfold buckets at 1. rewrite map_filter_insert_True by exact Hp.
    fold (buckets p counts).
    pose proof (sum_counts_insert (buckets p counts) (event_type e)
                  (default 0%nat (counts !! event_type e) + 1)) as H.
    rewrite (buckets_lookup p counts _ Hp) in H. lia.
  - unfold buckets. rewrite map_filter_insert_not; [reflexivity|].
    intros y. simpl. congruence.
Qed.

Lemma buckets_fold (p : string -> bool) (events : list Event) :
  forall counts,
    sum_counts (buckets p (fold_left count_event events counts))
    = (length (List.filter (fun e => p (event_type e)) events)
       + sum_counts (buckets p counts))%nat.
Proof.
  induction events as [|e events IH]; intros counts; simpl; [reflexivity|].
  rewrite IH, buckets_step. destruct (p (event_type e)); simpl; lia.
Qed.

Lemma counts_dom_fold (events : list Event) :
  forall counts : gmap string nat,
    dom (fold_left count_event events counts)
    = dom counts ∪ list_to_set (map event_type events).
Proof.
  induction events as [|e events IH]; intros counts; simpl.
  - apply set_eq. intros x. rewrite elem_of_union, elem_of_empty. tauto.
  - rewrite IH. unfold count_event. rewrite dom_insert_L.
    apply set_eq. intros x.
    rewrite !elem_of_union, elem_of_singleton. tauto.
Qed.

Lemma counts_positive_fold (events : list Event) :
  forall counts : gmap string nat,
    map_Forall (fun _ c => (1 <= c)%nat) counts ->
    map_Forall (fun _ c => (1 <= c)%nat)
               (fold_left count_event events counts).
Proof.
  induction events as [|e events IH]; intros counts H; simpl; [exact H|].
  apply IH. unfold count_event. apply map_Forall_insert_2; [lia|exact H].
Qed.

Lemma filter_disjoint_length {A} (p q : A -> bool) (l : list A) :
  (forall x, p x = true -> q x = false) ->
  (length (List.filter p l) + length (List.filter q l) <= length l)%nat.
Proof.
  intros Hpq. induction l as [|x l IH]; simpl; [lia|].
  destruct (p x) eqn:Hp.
  - rewrite (Hpq x Hp). simpl. lia.
  - destruct (q x); simpl; lia.
Qed.

Lemma node_ids_size (events : list Event) :
  (size (get_node_ids events) <= length events)%nat.
Proof.
  unfold get_node_ids. induction events as [|e events IH].
  - change (size (∅ : gset string) <= 0)%nat. now rewrite size_empty.
  - change (size ({[node_id e]} ∪ list_to_set (map node_id events)
                  : gset string) <= S (length events))%nat.
    rewrite size_union_alt, size_singleton.
    assert (size (list_to_set (map node_id events) ∖ {[node_id e]}
                  : gset string)
            <= size (list_to_set (map node_id events) : gset string))%nat
      by (apply subseteq_size; intros x Hx;
          apply elem_of_difference in Hx; tauto).
    lia.
Qed.

Lemma latencies_length (events : list Event) :
  length (calculate_election_latencies events)
  = length (get_elections events).
Proof.
  unfold calculate_election_latencies. rewrite latencies_of_omap.
  pose proof (omap_latency_closed _ (get_elections_closed events)) as H.
  apply (f_equal (@length _)) in H. now rewrite !length_map in H.
Qed.

(** The keys of [get_event_counts] are exactly the event types that occur;
    a stored count is never zero and is the number of events of its
    type. *)
Theorem event_count_buckets (events : list Event) :
  dom (get_event_counts events) = list_to_set (map event_type events)
  /\ (forall ty c,
        get_event_counts events !! ty = Some c ->
        (1 <= c)%nat /\ c = occurrences ty events)
  /\ (forall ty,
        get_event_counts events !! ty = None <-> occurrences ty events = 0%nat).
Proof.
  assert (Hpos : map_Forall (fun _ c => (1 <= c)%nat)
                            (get_event_counts events)).
  { apply counts_positive_fold, map_Forall_empty. }
  assert (Hocc : forall ty,
             default 0%nat (get_event_counts events !! ty)
             = occurrences ty events).
  { intros ty. unfold get_event_counts. rewrite count_fold_lookup.
    rewrite lookup_empty. simpl. lia. }
  split; [|split].
  - unfold get_event_counts. rewrite counts_dom_fold, dom_empty_L.
    apply set_eq. intros x. rewrite elem_of_union, elem_of_empty. tauto.
  - intros ty c Hc. split; [exact (Hpos ty c Hc)|].
    specialize (Hocc ty). now rewrite Hc in Hocc.
  - intros ty. specialize (Hocc ty).
    destruct (get_event_counts events !! ty) as [c|] eqn:Hc; simpl in Hocc.
    + pose proof (Hpos ty c Hc) as H1. simpl in H1.
      split; [discriminate|lia].
    + split; [now intros _|reflexivity].
Qed.

Lemma event_count_buckets_witness :
  (1 <= 2)%nat
  /\ 2%nat = occurrences "WRITE_REQUEST"
               [ev 1 "WRITE_REQUEST"; ev 2 "READ_REQUEST";
                ev 3 "WRITE_REQUEST"].
Proof.
  apply (proj1 (proj2 (event_count_buckets
                         [ev 1 "WRITE_REQUEST"; ev 2 "READ_REQUEST";
                          ev 3 "WRITE_REQUEST"])) "WRITE_REQUEST" 2%nat).
  vm_compute. reflexivity.
Defined.

(** The events whose type satisfies a test are as many as the sum of the
    count buckets of the types satisfying it; so [get_replication_stats]
    is the sum of the counts of the types containing REPLICATION, and the
    number of term changes is the TERM_CHANGE count. *)
Theorem counts_agree_with_filters (events : list Event) :
  (forall p : string -> bool,
      sum_counts (buckets p (get_event_counts events))
      = length (List.filter (fun e => p (event_type e)) events))
  /\ get_replication_stats events
     = sum_counts (buckets (contains "REPLICATION")
                           (get_event_counts events))
  /\ length (get_term_changes events)
     = default 0%nat (get_event_counts events !! "TERM_CHANGE").
Proof.
  assert (H : forall p : string -> bool,
             sum_counts (buckets p (get_event_counts events))
             = length (List.filter (fun e => p (event_type e)) events)).
  { intros p. unfold get_event_counts. rewrite buckets_fold.
    unfold buckets. rewrite map_filter_empty. unfold sum_counts.
    rewrite map_fold_empty. lia. }
  split; [exact H|]. split.
  - unfold get_replication_stats. now rewrite H.
  - unfold get_term_changes, get_event_counts. rewrite count_fold_lookup.
    rewrite lookup_empty. unfold occurrences. simpl. lia.
Qed.

(** The fields of the JSON report agree with each other: one latency per
    election, [writes] and [reads] are the WRITE_REQUEST and READ_REQUEST
    counts and together at most [total_events], the elections are at most
    the ELECTION_START count and at most the ELECTION_END count, and the
    nodes are at most as many as the events. *)
Theorem report_fields_agree (events : list Event) :
  let r := export_json_report events in
  length (election_latencies_ms r) = elections r
  /\ writes r = default 0%nat (event_counts r !! "WRITE_REQUEST")
  /\ reads r = default 0%nat (event_counts r !! "READ_REQUEST")
  /\ (writes r + reads r <= total_events r)%nat
  /\ (elections r <= default 0%nat (event_counts r !! "ELECTION_START"))%nat
  /\ (elections r <= default 0%nat (event_counts r !! "ELECTION_END"))%nat
  /\ (size (nodes r) <= total_events r)%nat.
Proof.
  assert (Hocc : forall ty,
             default 0%nat (get_event_counts events !! ty)
             = occurrences ty events).
  { intros ty. unfold get_event_counts. rewrite count_fold_lookup.
    rewrite lookup_empty. simpl. lia. }
  simpl. rewrite !Hocc. unfold occurrences.
  split; [apply latencies_length|].
  split; [reflexivity|]. split; [reflexivity|].
  split; [|split; [|split]].
  - apply filter_disjoint_length. intros e He.
    apply String.eqb_eq in He. now rewrite He.
  - pose proof (loop_count events [] None) as H. simpl in H.
    unfold get_elections. unfold is_start in H. lia.
  - pose proof (loop_count_ends events [] None) as H. simpl in H.
    unfold get_elections. unfold is_end in H. lia.
  - apply node_ids_size.
Qed.

End Report.


(* ===================================================================== *)
(** ** The printed summary                                                *)
(* ===================================================================== *)

Section SummaryStats.
Local Open Scope Q_scope.

Lemma fold_min_spec (rest : list Q) :
  forall m0,
    let r := fold_left (fun m y => if Qle_bool m y then m else y) rest m0 in
    r <= m0 /\ Forall (fun y => r <= y) rest /\ In r (m0 :: rest).
Proof.
  induction rest as [|y rest IH]; intros m0; simpl.
  - split; [apply Qle_refl|]. split; [constructor|now left].
  - destruct (Qle_bool m0 y) eqn:Hle.
    + apply Qle_bool_iff in Hle.
      destruct (IH m0) as (H1 & H2 & H3). split; [exact H1|]. split.
      * constructor; [eapply Qle_trans; eassumption|exact H2].
      * destruct H3 as [H3|H3]; [now left|right; now right].
    + assert (Hlt : y <= m0).
      { apply Qlt_le_weak, Qnot_le_lt. intros Hc.
        apply Qle_bool_iff in Hc. congruence. }
      destruct (IH y) as (H1 & H2 & H3). split.
      * eapply Qle_trans; eassumption.
      * split; [constructor; assumption|now right].
Qed.

Lemma fold_max_spec (rest : list Q) :
  forall m0,
    let r := fold_left (fun m y => if Qle_bool y m then m else y) rest m0 in
    m0 <= r /\ Forall (fun y => y <= r) rest /\ In r (m0 :: rest).
Proof.
  induction rest as [|y rest IH]; intros m0; simpl.
  - split; [apply Qle_refl|]. split; [constructor|now left].
  - destruct (Qle_bool y m0) eqn:Hle.
    + apply Qle_bool_iff in Hle.
      destruct (IH m0) as (H1 & H2 & H3). split; [exact H1|]. split.
      * constructor; [eapply Qle_trans; eassumption|exact H2].
      * destruct H3 as [H3|H3]; [now left|right; now right].
    + assert (Hlt : m0 <= y).
      { apply Qlt_le_weak, Qnot_le_lt. intros Hc.
        apply Qle_bool_iff in Hc. congruence. }
      destruct (IH y) as (H1 & H2 & H3). split.
      * eapply Qle_trans; eassumption.
      * split; [constructor; assumption|now right].
Qed.

Lemma sum_Q_fold (l : list Q) :
  forall a, fold_left Qplus l a == a + sum_Q l.
Proof.
  unfold sum_Q. induction l as [|x l IH]; intros a; simpl.
  - ring.
  - rewrite (IH (a + x)), (IH (0 + x)). ring.
Qed.

Lemma sum_Q_cons (x : Q) (l : list Q) : sum_Q (x :: l) == x + sum_Q l.
Proof. unfold sum_Q at 1. simpl. rewrite sum_Q_fold. ring. Qed.

Lemma inject_length_cons {A} (x : A) (l : list A) :
  inject_Z (Z.of_nat (length (x :: l)))
  == 1 + inject_Z (Z.of_nat (length l)).
Proof.
  simpl length. rewrite Nat2Z.inj_succ. unfold Z.succ.
  rewrite inject_Z_plus. ring.
Qed.

Lemma sum_Q_lower (m : Q) (l : list Q) :
  Forall (fun y => m <= y) l ->
  inject_Z (Z.of_nat (length l)) * m <= sum_Q l.
Proof.
  induction 1 as [|x l Hx _ IH].
  - simpl. unfold sum_Q. simpl. rewrite Qmult_0_l. apply Qle_refl.
  - rewrite inject_length_cons, sum_Q_cons.
    assert (Heq : (1 + inject_Z (Z.of_nat (length l))) * m
                  == m + inject_Z (Z.of_nat (length l)) * m) by ring.
    rewrite Heq. now apply Qplus_le_compat.
Qed.

Lemma sum_Q_upper (m : Q) (l : list Q) :
  Forall (fun y => y <= m) l ->
  sum_Q l <= inject_Z (Z.of_nat (length l)) * m.
Proof.
  induction 1 as [|x l Hx _ IH].
  - simpl. unfold sum_Q. simpl. rewrite Qmult_0_l. apply Qle_refl.
  - rewrite inject_length_cons, sum_Q_cons.
    assert (Heq : (1 + inject_Z (Z.of_nat (length l))) * m
                  == m + inject_Z (Z.of_nat (length l)) * m) by ring.
    rewrite Heq. now apply Qplus_le_compat.
Qed.

(** The statistics of a list of latencies: nothing raises, thanks to the
    two guards; the mean lies between the minimum and the maximum, which
    are latencies of the list. *)
Lemma latency_summary_spec (latencies : list Q) :
  (latencies = [] /\ latency_summary latencies = Some None)
  \/ exists st,
       latency_summary latencies = Some (Some st)
       /\ lat_min st <= lat_mean st /\ lat_mean st <= lat_max st
       /\ In (lat_min st) latencies /\ In (lat_max st) latencies
       /\ Forall (fun l => lat_min st <= l /\ l <= lat_max st) latencies
       /\ (lat_stdev st = None <-> length latencies = 1%nat).
Proof.
  destruct latencies as [|x rest]; [left; now split|right].
  set (l := x :: rest).
  destruct (fold_min_spec rest x) as (Hmin1 & Hmin2 & Hmin3).
  destruct (fold_max_spec rest x) as (Hmax1 & Hmax2 & Hmax3).
  set (mn := fold_left (fun m y => if Qle_bool m y then m else y) rest x)
    in *.
  set (mx := fold_left (fun m y => if Qle_bool y m then m else y) rest x)
    in *.
  assert (Hlo : Forall (fun y => mn <= y) l) by now constructor.
  assert (Hhi : Forall (fun y => y <= mx) l) by now constructor.
  assert (Hn : 0 < inject_Z (Z.of_nat (length l))).
  { change 0 with (inject_Z 0). rewrite <- Zlt_Qlt. simpl. lia. }
  assert (Hmean1 : mn <= sum_Q l / inject_Z (Z.of_nat (length l))).
  { apply Qle_shift_div_l; [exact Hn|].
    rewrite Qmult_comm. now apply sum_Q_lower. }
  assert (Hmean2 : sum_Q l / inject_Z (Z.of_nat (length l)) <= mx).
  { apply Qle_shift_div_r; [exact Hn|].
    rewrite Qmult_comm. now apply sum_Q_upper. }
  assert (Hboth : Forall (fun y => mn <= y /\ y <= mx) l).
  { apply List.Forall_forall. intros y Hy.
    rewrite List.Forall_forall in Hlo, Hhi. split; auto. }
  unfold latency_summary. fold l.
  change (py_min l) with (Some mn). change (py_max l) with (Some mx).
  change (statistics_mean l)
    with (Some (sum_Q l / inject_Z (Z.of_nat (length l)))).
  cbv iota beta.
  destruct (Nat.ltb_spec 1 (length l)) as [Hlen|Hlen].
  - unfold statistics_stdev, statistics_variance.
    destruct (Nat.ltb_spec (length l) 2) as [Hc|_]; [lia|].
    eexists. split; [reflexivity|]. simpl.
    repeat split; try assumption; try discriminate.
    intros Hc. unfold l in Hlen. simpl in Hlen. lia.
  - eexists. split; [reflexivity|]. simpl.
    repeat split; try assumption.
    intros _. unfold l in Hlen. simpl in Hlen. lia.
Qed.

(** [print_summary] never raises, whatever the events: the latency
    statistics are computed only when there is a latency and the standard
    deviation only when there are two.  When printed, the mean lies between
    the minimum and the maximum, which bound every latency. *)
Theorem summary_never_raises (events : list Event) :
  exists s,
    print_summary events = Some s
    /\ sum_elections s = length (calculate_election_latencies events)
    /\ (sum_latencies s = None <-> get_elections events = [])
    /\ (forall st,
          sum_latencies s = Some st ->
          lat_min st <= lat_mean st /\ lat_mean st <= lat_max st
          /\ Forall (fun l => lat_min st <= l /\ l <= lat_max st)
               (calculate_election_latencies events)
          /\ (lat_stdev st = None <-> sum_elections s = 1%nat)).
Proof.
  unfold print_summary.
  pose proof (latencies_length events) as Hlen.
  destruct (latency_summary_spec (calculate_election_latencies events))
    as [[Hnil ->]|(st & -> & H1 & H2 & Hin & _ & H3 & H4)].
  - eexists. split; [reflexivity|]. simpl.
    split; [now rewrite Hlen|]. split; [|discriminate].
    split; [intros _|reflexivity].
    rewrite Hnil in Hlen. simpl in Hlen.
    now destruct (get_elections events).
  - eexists. split; [reflexivity|]. simpl.
    split; [now rewrite Hlen|]. split.
    + split; [discriminate|]. intros Hnil. rewrite Hnil in Hlen.
      destruct (calculate_election_latencies events); [|discriminate].
      destruct Hin.
    + intros st' [= <-]. rewrite <- Hlen. auto.
Qed.

Lemma summary_never_raises_witness :
  exists s,
    print_summary [ev 1000 "ELECTION_START"; ev 4000 "ELECTION_END"]
    = Some s
    /\ exists st, sum_latencies s = Some st
                  /\ lat_min st <= lat_mean st /\ lat_mean st <= lat_max st.
Proof.
  destruct (summary_never_raises
              [ev 1000 "ELECTION_START"; ev 4000 "ELECTION_END"])
    as (s & Hs & _ & Hnone & Hst).
  exists s. split; [exact Hs|].
  destruct (sum_latencies s) as [st|] eqn:Hl.
  - exists st. split; [reflexivity|].
    destruct (Hst st eq_refl) as (H1 & H2 & _). now split.
  - exfalso. destruct Hnone as [Hn _]. specialize (Hn eq_refl).
    discriminate Hn.
Defined.

End SummaryStats.

End AnalyzeMetricsProps.

(* ===================================================================== *)
(** * Properties of the percentiles and of the grouped aggregation        *)
(* ===================================================================== *)

Module PlotProps.
Import Plot.

Local Open Scope string_scope.
Local Open Scope list_scope.

(** ** Percentiles *)

Section Percentile.
Local Open Scope Q_scope.

Lemma lerp_linear (a b t : Q) : lerp a b t == a + (b - a) * t.
Proof. unfold lerp. destruct (Qle_bool (1 # 2) t); ring. Qed.

(** The ceiling of a rational is its floor when it is an integer, and the
    next integer otherwise. *)
Lemma Qceiling_floor (x : Q) :
  (Qceiling x = Qfloor x /\ x == inject_Z (Qfloor x))
  \/ Qceiling x = (Qfloor x + 1)%Z.
Proof.
  pose proof (Qfloor_le x) as Hfl. pose proof (Qlt_floor x) as Hlf.
  pose proof (Qle_ceiling x) as Hlc. pose proof (Qceiling_lt x) as Hcl.
  assert (H1 : (Qfloor x <= Qceiling x)%Z).
  { rewrite Zle_Qle. eapply Qle_trans; eassumption. }
  assert (H2 : (Qceiling x - 1 < Qfloor x + 1)%Z).
  { rewrite Zlt_Qlt. eapply Qlt_trans; eassumption. }
  destruct (Z.eq_dec (Qceiling x) (Qfloor x)) as [Heq|Hne].
  - left. split; [exact Heq|].
    apply Qle_antisym; [|exact Hfl]. now rewrite <- Heq.
  - right. lia.
Qed.

Lemma py_index_nonneg (arr : list Q) (i : Z) :
  (0 <= i)%Z -> py_index arr i = nth (Z.to_nat i) arr 0.
Proof.
  intros Hi. unfold py_index.
  destruct (Z.ltb_spec i 0); [lia|reflexivity].
Qed.

Lemma py_index_last (arr : list Q) :
  py_index arr (-1) = nth (Z.to_nat (Z.of_nat (length arr) - 1)) arr 0.
Proof. reflexivity. Qed.

(** [np.percentile] agrees with the interpolation between the floor and
    the ceiling of the rank. *)
Lemma np_percentile_by_ranks (a : list Q) (q : Q) :
  a <> [] -> 0 <= q -> q <= 100 ->
  exists v, np_percentile a q = Some v
            /\ v == percentile_by_ranks (sort a) q.
Proof.
  intros Ha Hq0 Hq100.
  unfold np_percentile, percentile_by_ranks.
  set (arr := sort a).
  assert (Hlen : (1 <= Z.of_nat (length arr))%Z).
  { assert (Hl : length arr = length a).
    { unfold arr, sort. clear. induction a as [|x a IH]; simpl; [reflexivity|].
      rewrite <- IH. generalize (fold_right insert_sorted [] a).
      intros l. induction l as [|y l IHl]; simpl; [reflexivity|].
      destruct (Qle_bool x y); simpl; [reflexivity|now rewrite IHl]. }
    rewrite Hl. destruct a; [congruence|simpl; lia]. }
  set (m := (Z.of_nat (length arr) - 1)%Z) in *.
  destruct (Z.eqb_spec (Z.of_nat (length arr)) 0) as [H0|_]; [lia|].
  set (vi := inject_Z m * (q / 100)).
  set (rank := q / 100 * inject_Z m).
  assert (Hrank : rank == vi) by (unfold rank, vi; ring).
  assert (Hm0 : 0 <= inject_Z m).
  { change 0 with (inject_Z 0). rewrite <- Zle_Qle. lia. }
  assert (Hvi0 : 0 <= vi).
  { unfold vi. apply Qmult_le_0_compat; [exact Hm0|].
    apply Qle_shift_div_l; [reflexivity|]. now rewrite Qmult_0_l. }
  assert (Hvim : vi <= inject_Z m).
  { unfold vi. rewrite <- (Qmult_1_r (inject_Z m)) at 2.
    rewrite !(Qmult_comm (inject_Z m)).
    apply Qmult_le_compat_r; [|exact Hm0].
    apply Qle_shift_div_r; [reflexivity|]. now rewrite Qmult_1_l. }
  assert (Hfl : Qfloor rank = Qfloor vi) by now rewrite Hrank.
  assert (Hce : Qceiling rank = Qceiling vi) by now rewrite Hrank.
  rewrite Hfl, Hce.
  assert (Hf0 : (0 <= Qfloor vi)%Z).
  { change 0%Z with (Qfloor 0). now apply Qfloor_resp_le. }
  eexists. split; [reflexivity|].
  rewrite lerp_linear.
  destruct (Qle_bool (inject_Z m) vi) eqn:Hab.
  - (* the virtual index is the last index *)
    apply Qle_bool_iff in Hab.
    assert (Hvi : vi == inject_Z m) by now apply Qle_antisym.
    assert (Hfm : Qfloor vi = m) by (rewrite Hvi; apply Qfloor_Z).
    assert (Hcm : Qceiling vi = m) by (rewrite Hvi; apply Qceiling_Z).
    rewrite Hfm, Hcm, py_index_last. fold m. ring.
  - (* an interior virtual index *)
    rewrite !py_index_nonneg by lia.
    destruct (Qceiling_floor vi) as [[Hc Hint]|Hc]; rewrite Hc.
    + assert (Hg : vi - inject_Z (Qfloor vi) == 0) by (rewrite <- Hint; ring).
      rewrite Hrank, Hg. ring.
    + rewrite Hrank. ring.
Qed.

(** [sort] arranges the array in ascending order. *)
Lemma insert_sorted_perm (x : Q) (l : list Q) :
  Permutation (insert_sorted x l) (x :: l).
Proof.
  induction l as [|y l IH]; simpl; [reflexivity|].
  destruct (Qle_bool x y); [reflexivity|].
  rewrite IH. apply perm_swap.
Qed.

Lemma sort_perm (l : list Q) : Permutation (sort l) l.
Proof.
  unfold sort. induction l as [|x l IH]; simpl; [reflexivity|].
  rewrite insert_sorted_perm. now constructor.
Qed.

Lemma insert_sorted_sorted (x : Q) (l : list Q) :
  StronglySorted Qle l -> StronglySorted Qle (insert_sorted x l).
Proof.
  induction 1 as [|y l Hs IH Hy]; simpl.
  - repeat constructor.
  - destruct (Qle_bool x y) eqn:Hxy.
    + apply Qle_bool_iff in Hxy. constructor.
      * now constructor.
      * constructor; [exact Hxy|].
        eapply List.Forall_impl; [|exact Hy].
        intros z Hz. simpl in Hz. eapply Qle_trans; eassumption.
    + assert (Hyx : y <= x).
      { apply Qlt_le_weak, Qnot_le_lt. intros Hc.
        apply Qle_bool_iff in Hc. congruence. }
      constructor; [exact IH|].
      rewrite insert_sorted_perm. now constructor.
Qed.

Lemma sort_sorted (l : list Q) : StronglySorted Qle (sort l).
Proof.
  unfold sort. induction l as [|x l IH]; simpl; [constructor|].
  now apply insert_sorted_sorted.
Qed.

(** C6: [np.percentile] over the merged array is the linear interpolation
    between closest ranks: on the sorted array of length n the rank is
    p/100 * (n - 1) and the value is interpolated between the elements at
    its floor and at its ceiling; for the array 1..10, p50 is 5.5 and p90
    is 9.1. *)
Theorem percentile_linear_interpolation :
  (forall (a : list Q) (p : Q),
      a <> [] -> 0 <= p -> p <= 100 ->
      Permutation (sort a) a
      /\ StronglySorted Qle (sort a)
      /\ is_value (np_percentile a p) (percentile_by_ranks (sort a) p))
  /\ is_value (np_percentile one_to_ten 50) 5.5
  /\ is_value (np_percentile one_to_ten 90) 9.1.
Proof.
  split; [|split; vm_compute; reflexivity].
  intros a p Ha Hp0 Hp100.
  split; [apply sort_perm|]. split; [apply sort_sorted|].
  destruct (np_percentile_by_ranks a p Ha Hp0 Hp100) as (v & -> & Hv).
  exact Hv.
Qed.

Lemma percentile_linear_interpolation_witness :
  is_value (np_percentile [30; 10; 20; 40] 95)
           (percentile_by_ranks (sort [30; 10; 20; 40]) 95).
Proof.
  apply (proj1 percentile_linear_interpolation [30; 10; 20; 40] 95);
    [discriminate | unfold Qle; simpl; lia | unfold Qle; simpl; lia].
Defined.

End Percentile.

(** ** Grouping of the latency files *)

Section Grouping.

(** *** Insertion-ordered dicts *)

Lemma dict_get_update_eq {V} (k : string) (dflt : V) (f : V -> V)
  (d : dict V) :
  dict_get k (setdefault_update k dflt f d)
  = Some (f (default dflt (dict_get k d))).
Proof.
  induction d as [|[k' v] d IH]; simpl.
  - now rewrite String.eqb_refl.
  - destruct (String.eqb k' k) eqn:Hk; simpl; rewrite Hk; [reflexivity|].
    exact IH.
Qed.

Lemma dict_get_update_ne {V} (k k' : string) (dflt : V) (f : V -> V)
  (d : dict V) :
  k' <> k ->
  dict_get k' (setdefault_update k dflt f d) = dict_get k' d.
Proof.
  intros Hne. induction d as [|[k0 v] d IH]; simpl.
  - destruct (String.eqb_spec k k'); [congruence|reflexivity].
  - destruct (String.eqb_spec k0 k) as [->|Hk0]; simpl.
    + destruct (String.eqb_spec k k'); [congruence|reflexivity].
    + destruct (String.eqb k0 k'); [reflexivity|exact IH].
Qed.

Lemma dict_get_In {V} (k : string) (v : V) (d : dict V) :
  dict_get k d = Some v -> In (k, v) d.
Proof.
  induction d as [|[k' v'] d IH]; simpl; [discriminate|].
  destruct (String.eqb_spec k' k) as [->|Hne].
  - intros [= ->]. now left.
  - intros H. right. now apply IH.
Qed.

Lemma dict_get_None {V} (k : string) (d : dict V) :
  dict_get k d = None -> ~ In k (map fst d).
Proof.
  induction d as [|[k' v'] d IH]; simpl; [tauto|].
  destruct (String.eqb_spec k' k) as [->|Hne]; [discriminate|].
  intros H [Heq|Hin]; [congruence|]. now apply IH.
Qed.

Lemma In_dict_get {V} (k : string) (v : V) (d : dict V) :
  NoDup (map fst d) -> In (k, v) d -> dict_get k d = Some v.
Proof.
  induction d as [|[k' v'] d IH]; simpl; [tauto|].
  intros Hnd [Heq|Hin].
  - injection Heq as -> ->. now rewrite String.eqb_refl.
  - apply NoDup_cons in Hnd as [Hk' Hnd].
    destruct (String.eqb_spec k' k) as [->|Hne].
    + exfalso. apply Hk', list_elem_of_In.
      now apply (in_map fst) in Hin.
    + now apply IH.
Qed.

Lemma update_keys {V} (k : string) (dflt : V) (f : V -> V) (d : dict V) :
  map fst (setdefault_update k dflt f d)
  = match dict_get k d with
    | Some _ => map fst d
    | None => map fst d ++ [k]
    end.
Proof.
  induction d as [|[k' v] d IH]; simpl; [reflexivity|].
  destruct (String.eqb_spec k' k) as [->|Hne]; simpl; [reflexivity|].
  rewrite IH. now destruct (dict_get k d).
Qed.

Lemma update_NoDup {V} (k : string) (dflt : V) (f : V -> V) (d : dict V) :
  NoDup (map fst d) -> NoDup (map fst (setdefault_update k dflt f d)).
Proof.
  intros Hnd. rewrite update_keys.
  destruct (dict_get k d) eqn:Hk; [exact Hnd|].
  apply NoDup_app. split; [exact Hnd|]. split.
  - intros x Hx Hx'. apply list_elem_of_In in Hx, Hx'.
    destruct Hx' as [<-|[]]. now apply (dict_get_None k d).
  - repeat constructor. intros H. now apply list_elem_of_In in H.
Qed.

(** What an updated dict holds was there before, or is the updated entry. *)
Lemma update_In {V} (k k0 : string) (dflt v0 : V) (f : V -> V)
  (d : dict V) :
  In (k0, v0) (setdefault_update k dflt f d) ->
  In (k0, v0) d \/ (k0 = k /\ v0 = f (default dflt (dict_get k d))).
Proof.
  induction d as [|[k' v] d IH]; simpl.
  - intros [[= <- <-]|[]]. now right.
  - destruct (String.eqb_spec k' k) as [->|Hne]; simpl.
    + intros [[= <- <-]|Hin]; [now right|left; now right].
    + intros [Heq|Hin]; [left; now left|].
      destruct (IH Hin) as [H|H]; [left; now right|now right].
Qed.

(** Keys are never removed. *)
Lemma update_keeps_keys {V} (k k0 : string) (dflt : V) (f : V -> V)
  (d : dict V) :
  In k0 (map fst d) -> In k0 (map fst (setdefault_update k dflt f d)).
Proof.
  intros H. rewrite update_keys.
  destruct (dict_get k d); [exact H|]. apply in_or_app. now left.
Qed.

Lemma update_has_key {V} (k : string) (dflt : V) (f : V -> V) (d : dict V) :
  In k (map fst (setdefault_update k dflt f d)).
Proof.
  pose proof (dict_get_update_eq k dflt f d) as H.
  apply dict_get_In in H. now apply (in_map fst) in H.
Qed.

(** *** Splitting file names *)

Lemma split_not_nil (sep : ascii) (s : string) : split sep s <> [].
Proof.
  destruct s as [|c s]; simpl; [discriminate|].
  destruct (Ascii.eqb c sep); [discriminate|].
  destruct (split sep s); discriminate.
Qed.

Lemma split_no_sep (sep : ascii) (s : string) :
  has_char sep s = false -> split sep s = [s].
Proof.
  induction s as [|c s IH]; simpl; [reflexivity|].
  intros H. apply orb_false_elim in H as [Hc Hs].
  rewrite Hc, (IH Hs). reflexivity.
Qed.

Lemma split_append (sep : ascii) (a b : string) :
  has_char sep a = false ->
  split sep (a ++ String sep b) = a :: split sep b.
Proof.
  induction a as [|c a IH]; simpl.
  - intros _. now rewrite Ascii.eqb_refl.
  - intros H. apply orb_false_elim in H as [Hc Ha].
    rewrite Hc, (IH Ha). reflexivity.
Qed.

Lemma split_pieces (sep : ascii) (s : string) :
  Forall (fun piece => has_char sep piece = false) (split sep s).
Proof.
  induction s as [|c s IH]; simpl; [repeat constructor|].
  destruct (Ascii.eqb c sep) eqn:Hc.
  - constructor; [reflexivity|exact IH].
  - destruct (split sep s) as [|piece pieces]; [repeat constructor; simpl;
      now rewrite Hc|].
    inversion IH as [|? ? Hp Hps]; subst.
    constructor; [simpl; now rewrite Hc, Hp|exact Hps].
Qed.

(** A string that splits in two is its two pieces around the separator. *)
Lemma split_one (sep : ascii) (s a : string) : split sep s = [a] -> s = a.
Proof.
  revert a. induction s as [|c s IH]; simpl; intros a; [congruence|].
  destruct (Ascii.eqb c sep).
  - intros [= _ H]. now apply split_not_nil in H.
  - destruct (split sep s) as [|piece pieces] eqn:Hsp;
      [now apply split_not_nil in Hsp|].
    intros [= <- ->]. f_equal. now apply IH.
Qed.

Lemma split_two (sep : ascii) (s a b : string) :
  split sep s = [a; b] -> s = (a ++ String sep b)%string.
Proof.
  revert a. induction s as [|c s IH]; simpl; intros a; [discriminate|].
  destruct (Ascii.eqb_spec c sep) as [->|Hne].
  - intros [= <- Hb]. now rewrite (split_one sep s b Hb).
  - destruct (split sep s) as [|piece pieces] eqn:Hsp;
      [now apply split_not_nil in Hsp|].
    intros [= <- ->]. rewrite (IH piece eq_refl) at 1. reflexivity.
Qed.

Lemma key_string_split (s r : string) :
  has_char "_" s = false -> has_char "_" r = false ->
  split "_" (key_string s r) = [s; r].
Proof.
  intros Hs Hr.
  change (key_string s r) with (s +:+ String "_" r).
  now rewrite split_append, (split_no_sep _ r Hr).
Qed.

Lemma key_string_inj (s r s' r' : string) :
  has_char "_" s = false -> has_char "_" r = false ->
  has_char "_" s' = false -> has_char "_" r' = false ->
  key_string s r = key_string s' r' -> s = s' /\ r = r'.
Proof.
  intros Hs Hr Hs' Hr' Heq.
  pose proof (key_string_split s r Hs Hr) as H.
  rewrite Heq, (key_string_split s' r' Hs' Hr') in H.
  injection H as -> ->. now split.
Qed.

(** The two parts of a grouping key hold no underscore. *)
Lemma file_key_parts (path s r : string) :
  file_key path = Some (s, r) ->
  has_char "_" s = false /\ has_char "_" r = false.
Proof.
  unfold file_key. pose proof (split_pieces "_" (basename path)) as Hp.
  destruct (split "_" (basename path)) as [|a [|b [|c [|d rest]]]];
    simpl; try discriminate.
  intros [= <- <-].
  inversion Hp as [|? ? Ha Hp']; subst.
  inversion Hp' as [|? ? Hb _]; subst. now split.
Qed.

(** *** The dict [groups] *)

Lemma groups_step_key (groups : dict (list string)) (path : string) :
  groups_step groups path
  = match file_key path with
    | Some (s, r) =>
        setdefault_update (key_string s r) []
          (fun files => files ++ [path]) groups
    | None => groups
    end.
Proof.
  unfold groups_step, file_key.
  now destruct (length (split "_" (basename path)) <? 4)%nat.
Qed.

Lemma build_groups_snoc (paths : list string) (path : string) :
  build_groups (paths ++ [path]) = groups_step (build_groups paths) path.
Proof. unfold build_groups. now rewrite fold_left_app. Qed.

Lemma filter_snoc {A} (f : A -> bool) (l : list A) (x : A) :
  List.filter f (l ++ [x]) = List.filter f l ++ (if f x then [x] else []).
Proof. rewrite List.filter_app. reflexivity. Qed.

(** Under each key string [groups] holds the files with that key, in input
    order, and only keys that have a file. *)
Lemma build_groups_spec (paths : list string) :
  NoDup (map fst (build_groups paths))
  /\ forall key,
      dict_get key (build_groups paths)
      = match List.filter (has_key key) paths with
        | [] => None
        | files => Some files
        end.
Proof.
  induction paths as [|path paths [IHnd IH]] using rev_ind.
  - split; [constructor|reflexivity].
  - rewrite build_groups_snoc, groups_step_key.
    destruct (file_key path) as [[s r]|] eqn:Hk.
    + split; [now apply update_NoDup|].
      intros key. rewrite filter_snoc. unfold has_key at 2. rewrite Hk.
      destruct (String.eqb_spec (key_string s r) key) as [<-|Hne].
      * rewrite dict_get_update_eq, IH.
        destruct (List.filter (has_key (key_string s r)) paths);
          reflexivity.
      * rewrite dict_get_update_ne by congruence.
        rewrite IH, app_nil_r. reflexivity.
    + split; [exact IHnd|].
      intros key. rewrite filter_snoc. unfold has_key at 2. rewrite Hk.
      rewrite IH, app_nil_r. reflexivity.
Qed.

Lemma has_key_in_group (s r path : string) :
  has_char "_" s = false -> has_char "_" r = false ->
  has_key (key_string s r) path = in_group s r path.
Proof.
  intros Hs Hr. unfold has_key, in_group.
  destruct (file_key path) as [[s' r']|] eqn:Hk; [|reflexivity].
  destruct (file_key_parts path s' r' Hk) as [Hs' Hr'].
  destruct (String.eqb_spec (key_string s' r') (key_string s r)) as [He|Hne].
  - destruct (key_string_inj s' r' s r Hs' Hr' Hs Hr He) as [-> ->].
    now rewrite !String.eqb_refl.
  - destruct (String.eqb_spec s' s) as [->|]; [|reflexivity].
    destruct (String.eqb_spec r' r) as [->|]; [congruence|reflexivity].
Qed.

(** An item of [groups] is a key of two underscore-free parts with the
    files of that group. *)
Lemma build_groups_In (paths : list string) (key : string)
  (files : list string) :
  In (key, files) (build_groups paths) ->
  exists s r,
    split "_" key = [s; r]
    /\ files = group_files s r paths
    /\ files <> [].
Proof.
  intros Hin. destruct (build_groups_spec paths) as [Hnd Hget].
  apply (In_dict_get _ _ _ Hnd) in Hin. rewrite Hget in Hin.
  destruct (List.filter (has_key key) paths) as [|f fs] eqn:Hf;
    [discriminate|].
  injection Hin as <-.
  assert (Hfin : In f (List.filter (has_key key) paths))
    by (rewrite Hf; now left).
  apply List.filter_In in Hfin as [_ Hfk]. unfold has_key in Hfk.
  destruct (file_key f) as [[s r]|] eqn:Hk; [|discriminate].
  apply String.eqb_eq in Hfk. subst key.
  destruct (file_key_parts f s r Hk) as [Hs Hr].
  exists s, r. split; [now apply key_string_split|].
  split; [|discriminate].
  rewrite <- Hf. unfold group_files. apply List.filter_ext.
  intros path. now apply has_key_in_group.
Qed.

(** *** The dict [by_req] *)

Lemma build_by_req_snoc (groups : dict (list string))
  (item : string * list string) :
  build_by_req (groups ++ [item]) = by_req_step (build_by_req groups) item.
Proof. unfold build_by_req. now rewrite fold_left_app. Qed.

(** Regrouping by request size never raises, and [by_req] holds under a
    request size and a scenario exactly the files [groups] holds under the
    key of the two. *)
Lemma build_by_req_spec (groups : dict (list string)) :
  NoDup (map fst groups) ->
  (forall key files, In (key, files) groups ->
     exists s r, split "_" key = [s; r]) ->
  exists by_req,
    build_by_req groups = Some by_req
    /\ (forall r scen_map s files,
          In (r, scen_map) by_req -> In (s, files) scen_map ->
          exists key, In (key, files) groups /\ split "_" key = [s; r])
    /\ (forall key files s r,
          In (key, files) groups -> split "_" key = [s; r] ->
          exists scen_map,
            dict_get r by_req = Some scen_map /\ In s (map fst scen_map)).
Proof.
  induction groups as [|[key files] groups IH] using rev_ind;
    intros Hnd Hwf.
  - exists []. split; [reflexivity|]. split.
    + intros r sm s fs [].
    + intros k fs s r [].
  - rewrite map_app in Hnd. apply NoDup_app in Hnd as (Hnd & Hfresh & _).
    destruct IH as (by_req & Hb & Hsound & Hcompl); [exact Hnd| |].
    { intros k fs Hin. apply (Hwf k fs), in_or_app. now left. }
    destruct (Hwf key files) as (s0 & r0 & Hsplit);
      [apply in_or_app; right; now left|].
    rewrite build_by_req_snoc, Hb. simpl. rewrite Hsplit.
    eexists. split; [reflexivity|].
    assert (Hnew : forall old,
               dict_get s0 (default [] (dict_get r0 by_req)) = Some old ->
               False).
    { intros old Hold.
      destruct (dict_get r0 by_req) as [sm0|] eqn:Hr0; [|discriminate].
      simpl in Hold. apply dict_get_In in Hr0, Hold.
      destruct (Hsound _ _ _ _ Hr0 Hold) as (key' & Hin' & Hsplit').
      apply split_two in Hsplit, Hsplit'. subst key key'.
      apply (in_map fst) in Hin'. simpl in Hin'.
      apply (Hfresh (s0 +:+ String "_" r0)).
      - now apply list_elem_of_In.
      - simpl. left. }
    split.
    + intros r sm s fs Hr Hs.
      apply update_In in Hr as [Hr|[-> ->]].
      { destruct (Hsound _ _ _ _ Hr Hs) as (key' & Hin' & Hsplit').
        exists key'. split; [apply in_or_app; now left|exact Hsplit']. }
      apply update_In in Hs as [Hs|[-> ->]].
      * destruct (dict_get r0 by_req) as [sm0|] eqn:Hr0; [|destruct Hs].
        simpl in Hs. apply dict_get_In in Hr0.
        destruct (Hsound _ _ _ _ Hr0 Hs) as (key' & Hin' & Hsplit').
        exists key'. split; [apply in_or_app; now left|exact Hsplit'].
      * exists key. split; [|exact Hsplit].
        assert (Hnone :
                  dict_get s0 (default [] (dict_get r0 by_req)) = None).
        { destruct (dict_get s0 (default [] (dict_get r0 by_req)))
            as [old|]; [destruct (Hnew old eq_refl)|reflexivity]. }
        apply in_or_app. right. left. now rewrite Hnone.
    + intros k fs s r Hin Hk.
      apply in_app_or in Hin as [Hin|[[= <- <-]|[]]].
      * destruct (Hcompl _ _ _ _ Hin Hk) as (sm & Hget & Hs).
        destruct (String.eqb_spec r r0) as [->|Hne].
        -- rewrite dict_get_update_eq, Hget. simpl.
           eexists. split; [reflexivity|]. now apply update_keeps_keys.
        -- rewrite dict_get_update_ne by exact Hne. now exists sm.
      * rewrite Hsplit in Hk. injection Hk as <- <-.
        rewrite dict_get_update_eq.
        eexists. split; [reflexivity|]. apply update_has_key.
Qed.

(** *** The rows of [percentiles_rows] *)

Lemma plot_fold_None (read : string -> option (list Q))
  (by_req : dict (dict (list string))) :
  fold_left (plot_step read) by_req None = None.
Proof. induction by_req as [|[req sm] by_req IH]; [reflexivity|exact IH]. Qed.

Lemma plot_fold (read : string -> option (list Q))
  (by_req : dict (dict (list string))) :
  forall acc,
    fold_left (plot_step read) by_req (Some acc)
    = if forallb (fun item => tail_reads_ok read (snd item)) by_req
      then Some (acc ++ flat_map (fun item =>
                                    request_rows read (fst item) (snd item))
                                 by_req)
      else None.
Proof.
  induction by_req as [|[req sm] by_req IH]; intros acc; simpl.
  - now rewrite app_nil_r.
  - destruct (tail_reads_ok read sm); simpl.
    + rewrite IH. destruct (forallb _ by_req); [|reflexivity].
      now rewrite <- app_assoc.
    + apply plot_fold_None.
Qed.

Lemma scenario_row_spec (read : string -> option (list Q))
  (req scen : string) (files : list string) (row : PercentileRow) :
  scenario_row read req scen files = Some row ->
  scenario row = scen /\ request_group row = req
  /\ read_all read files <> []
  /\ row_over row (concat (read_all read files)).
Proof.
  unfold scenario_row.
  destruct (read_all read files) as [|vals rest] eqn:Hall; [discriminate|].
  intros [= <-]. unfold row_over. simpl.
  repeat split; discriminate.
Qed.

Lemma read_all_parsed (read : string -> option (list Q))
  (files : list string) :
  Forall (fun f => is_Some (read f)) files ->
  map Some (read_all read files) = map read files.
Proof.
  unfold read_all. induction 1 as [|f files [v Hv] _ IH]; [reflexivity|].
  simpl. rewrite Hv. simpl. f_equal. exact IH.
Qed.

Lemma scenario_row_total (read : string -> option (list Q))
  (req scen : string) (files : list string) :
  files <> [] -> Forall (fun f => is_Some (read f)) files ->
  exists row, scenario_row read req scen files = Some row.
Proof.
  intros Hne Hall. unfold scenario_row.
  destruct files as [|f files]; [congruence|].
  inversion Hall as [|? ? [v Hv] _]; subst.
  unfold read_all. simpl. rewrite Hv. simpl. eexists. reflexivity.
Qed.

Lemma tail_reads_ok_spec (read : string -> option (list Q))
  (scen_map : dict (list string)) :
  tail_reads_ok read scen_map = true
  <-> (forall s files, In (s, files) scen_map ->
         Forall (fun f => is_Some (read f)) files).
Proof.
  unfold tail_reads_ok. rewrite forallb_forall. split.
  - intros H s files Hin. specialize (H _ Hin). simpl in H.
    rewrite forallb_forall in H. apply List.Forall_forall.
    intros f Hf. specialize (H f Hf).
    destruct (read f); [now eexists|discriminate].
  - intros H [s files] Hin. simpl. rewrite forallb_forall.
    intros f Hf. specialize (H s files Hin).
    rewrite List.Forall_forall in H. now destruct (H f Hf) as [v ->].
Qed.

(** [plot_latency_cdf] in terms of the groups: it returns rows exactly
    when every file of every group parses, and its rows are those of the
    items of [by_req]. *)
Lemma plot_latency_cdf_rows (read : string -> option (list Q))
  (paths : list string) :
  exists by_req,
    build_by_req (build_groups paths) = Some by_req
    /\ (forall r sm s files,
          In (r, sm) by_req -> In (s, files) sm ->
          has_char "_" s = false /\ has_char "_" r = false
          /\ files = group_files s r paths /\ files <> [])
    /\ (forall path s r,
          In path paths -> file_key path = Some (s, r) ->
          exists sm files, In (r, sm) by_req /\ In (s, files) sm)
    /\ plot_latency_cdf read paths
       = if forallb (fun item => tail_reads_ok read (snd item)) by_req
         then Some (flat_map (fun item =>
                                request_rows read (fst item) (snd item))
                             by_req)
         else None.
Proof.
  destruct (build_groups_spec paths) as [Hnd Hget].
  destruct (build_by_req_spec (build_groups paths) Hnd)
    as (by_req & Hb & Hsound & Hcompl).
  { intros key files Hin.
    destruct (build_groups_In _ _ _ Hin) as (s & r & Hsp & _). eauto. }
  exists by_req. split; [exact Hb|]. split; [|split].
  - intros r sm s files Hr Hs.
    destruct (Hsound _ _ _ _ Hr Hs) as (key & Hin & Hsp).
    destruct (build_groups_In _ _ _ Hin) as (s' & r' & Hsp' & Hf & Hne).
    rewrite Hsp in Hsp'. injection Hsp' as <- <-.
    pose proof (split_pieces "_" key) as Hp. rewrite Hsp in Hp.
    inversion Hp as [|? ? Hs0 Hp']; subst.
    inversion Hp' as [|? ? Hr0 _]; subst. auto.
  - intros path s r Hin Hk.
    destruct (file_key_parts path s r Hk) as [Hs Hr].
    assert (Hf : In path (List.filter (has_key (key_string s r)) paths)).
    { apply List.filter_In. split; [exact Hin|].
      unfold has_key. rewrite Hk. apply String.eqb_refl. }
    specialize (Hget (key_string s r)).
    destruct (List.filter (has_key (key_string s r)) paths)
      as [|f fs]; [destruct Hf|].
    apply dict_get_In in Hget.
    destruct (Hcompl _ _ s r Hget (key_string_split s r Hs Hr))
      as (sm & Hsm & Hkeys).
    apply dict_get_In in Hsm. apply in_map_iff in Hkeys as ([s' files] & <- & Hfiles).
    exists sm, files. now split.
  - unfold plot_latency_cdf. rewrite Hb. apply plot_fold.
Qed.

(** C4: the percentiles of a (scenario, request size) group are computed
    over one array, the concatenation of the values of all its files that
    parse: every row returned by [plot_latency_cdf] holds the percentiles of
    the merged values of all files carrying the row's key, and every group
    has its row.  Two files of three values each give the percentiles of
    the six merged values, not those of either file. *)
Theorem percentiles_over_merged_group :
  (forall read req scen files row,
      scenario_row read req scen files = Some row ->
      row_over row (concat (read_all read files)))
  /\ (forall read paths rows row,
         plot_latency_cdf read paths = Some rows -> In row rows ->
         let files :=
           group_files (scenario row) (request_group row) paths in
         files <> []
         /\ map Some (read_all read files) = map read files
         /\ row_over row (concat (read_all read files)))
  /\ (forall read paths,
         (forall path, In path paths -> file_key path <> None ->
                       is_Some (read path)) ->
         exists rows,
           plot_latency_cdf read paths = Some rows
           /\ forall path s r,
               In path paths -> file_key path = Some (s, r) ->
               exists row, In row rows /\ scenario row = s
                           /\ request_group row = r)
  /\ (plot_latency_cdf read_two_runs two_runs = Some [two_runs_row]
      /\ concat (read_all read_two_runs
                   (group_files "leader" "req100" two_runs))
         = [1; 2; 3; 4; 5; 6]%Q
      /\ is_value (np_percentile [1; 2; 3; 4; 5; 6]%Q 50%Q) 3.5%Q
      /\ is_value (np_percentile [1; 2; 3]%Q 50%Q) 2%Q
      /\ is_value (np_percentile [4; 5; 6]%Q 50%Q) 5%Q).
Proof.
  split; [|split; [|split]].
  - intros read req scen files row H.
    now apply scenario_row_spec in H.
  - intros read paths rows row Hplot Hrow files.
    destruct (plot_latency_cdf_rows read paths)
      as (by_req & _ & Hsound & _ & Heq).
    rewrite Heq in Hplot.
    destruct (forallb _ by_req) eqn:Hok; [|discriminate].
    injection Hplot as <-.
    apply in_flat_map in Hrow as ([r sm] & Hr & Hrow). simpl in Hrow.
    unfold request_rows in Hrow.
    apply list_elem_of_In, list_elem_of_omap in Hrow
      as ([s fs] & Hs & Hrow).
    apply list_elem_of_In in Hs. simpl in Hrow.
    destruct (scenario_row_spec _ _ _ _ _ Hrow) as (Hscen & Hreq & _ & Hover).
    destruct (Hsound _ _ _ _ Hr Hs) as (_ & _ & Hfs & Hne).
    rewrite forallb_forall in Hok. specialize (Hok _ Hr). simpl in Hok.
    rewrite tail_reads_ok_spec in Hok. specialize (Hok _ _ Hs).
    unfold files. rewrite Hscen, Hreq, <- Hfs.
    split; [exact Hne|]. split; [now apply read_all_parsed|exact Hover].
  - intros read paths Hread.
    destruct (plot_latency_cdf_rows read paths)
      as (by_req & _ & Hsound & Hcompl & Heq).
    assert (Hparsed : forall r sm s files,
               In (r, sm) by_req -> In (s, files) sm ->
               Forall (fun f => is_Some (read f)) files).
    { intros r sm s files Hr Hs.
      destruct (Hsound _ _ _ _ Hr Hs) as (_ & _ & -> & _).
      apply List.Forall_forall. intros f Hf.
      apply List.filter_In in Hf as [Hin Hg].
      apply Hread; [exact Hin|]. unfold in_group in Hg.
      destruct (file_key f); [discriminate|discriminate]. }
    assert (Hok : forallb (fun item => tail_reads_ok read (snd item)) by_req
                  = true).
    { apply forallb_forall. intros [r sm] Hr. simpl.
      apply tail_reads_ok_spec. intros s files Hs. now apply (Hparsed r sm s). }
    rewrite Hok in Heq. eexists. split; [exact Heq|].
    intros path s r Hin Hk.
    destruct (Hcompl _ _ _ Hin Hk) as (sm & files & Hr & Hs).
    destruct (Hsound _ _ _ _ Hr Hs) as (_ & _ & _ & Hne).
    destruct (scenario_row_total read r s files Hne (Hparsed _ _ _ _ Hr Hs))
      as [row Hrow].
    exists row.
    destruct (scenario_row_spec _ _ _ _ _ Hrow) as (Hscen & Hreq & _).
    split; [|now split].
    apply in_flat_map. exists (r, sm). split; [exact Hr|]. simpl.
    apply list_elem_of_In, list_elem_of_omap. exists (s, files).
    split; [now apply list_elem_of_In|exact Hrow].
  - repeat split; vm_compute; reflexivity.
Qed.

Lemma percentiles_over_merged_group_witness :
  group_files (scenario two_runs_row) (request_group two_runs_row) two_runs
  <> []
  /\ map Some (read_all read_two_runs
                 (group_files (scenario two_runs_row)
                    (request_group two_runs_row) two_runs))
     = map read_two_runs
         (group_files (scenario two_runs_row)
            (request_group two_runs_row) two_runs)
  /\ row_over two_runs_row
       (concat (read_all read_two_runs
                  (group_files (scenario two_runs_row)
                     (request_group two_runs_row) two_runs))).
Proof.
  apply (proj1 (proj2 percentiles_over_merged_group)
           read_two_runs two_runs [two_runs_row] two_runs_row).
  - vm_compute. reflexivity.
  - simpl. left. reflexivity.
Defined.

End Grouping.

(** ** Grouped aggregation *)

Section Aggregation.
Local Open Scope R_scope.

Lemma total_app (l1 l2 : list R) : total (l1 ++ l2) = total l1 + total l2.
Proof.
  unfold total. induction l1 as [|x l1 IH]; simpl; [lra|]. rewrite IH. lra.
Qed.

Lemma total_single (x : R) : total [x] = x.
Proof. unfold total. simpl. lra. Qed.

Lemma sum_values_total (values : list R) : sum_values values = total values.
Proof.
  unfold sum_values.
  assert (H : forall acc, fold_left Rplus values acc = acc + total values).
  { induction values as [|x values IH]; intros acc; simpl.
    - unfold total. simpl. lra.
    - rewrite IH. unfold total. simpl. lra. }
  rewrite H. lra.
Qed.

Lemma sum_sq_dev_expand (c : R) (values : list R) :
  sum_sq_dev c values
  = total (map (fun x => x * x) values) - 2 * c * total values
    + INR (length values) * (c * c).
Proof.
  unfold sum_sq_dev, total.
  induction values as [|x values IH]; [simpl; lra|].
  rewrite length_cons, S_INR. simpl. rewrite IH. lra.
Qed.

Lemma var_state_init :
  var_state_of {| nobs := 0; run_mean := 0; ssqdm := 0 |} [].
Proof. unfold var_state_of, total. simpl. repeat split; lra. Qed.

Lemma var_state_step (st : VarState) (seen : list R) (val : R) :
  var_state_of st seen ->
  var_state_of (group_var_step st val) (seen ++ [val]).
Proof.
  intros (Hn & Hm & Hs). unfold var_state_of, group_var_step.
  cbn [nobs run_mean ssqdm].
  rewrite map_app, !total_app, length_app. cbn [map length].
  rewrite !total_single, S_INR.
  pose proof (pos_INR (nobs st)) as Hpos.
  split; [lia|]. split.
  - rewrite <- Hm. field. lra.
  - rewrite Hs, <- Hm. field. lra.
Qed.

Lemma var_state_fold (rest : list R) :
  forall st seen,
    var_state_of st seen ->
    var_state_of (fold_left group_var_step rest st) (seen ++ rest).
Proof.
  induction rest as [|val rest IH]; intros st seen H; simpl.
  - now rewrite app_nil_r.
  - replace (seen ++ val :: rest) with ((seen ++ [val]) ++ rest)
      by now rewrite <- app_assoc.
    apply IH. now apply var_state_step.
Qed.

(** The one-pass variance is the sum of squared deviations from the mean
    over [n - ddof]. *)
Lemma group_var_unbiased (values : list R) :
  (2 <= length values)%nat ->
  group_var 1 values
  = Some (sum_sq_dev (sample_mean values) values
          / (INR (length values) - 1)).
Proof.
  intros Hlen. unfold group_var.
  destruct (var_state_fold values _ [] var_state_init) as (Hn & Hm & Hs).
  simpl in Hn, Hm, Hs.
  set (st := fold_left group_var_step values _) in *.
  rewrite Hn.
  destruct (Nat.leb_spec (length values) 1) as [Hle|_]; [lia|].
  f_equal. rewrite Hn in Hm.
  assert (Hnz : INR (length values) <> 0).
  { apply not_0_INR. lia. }
  assert (Hmean : run_mean st = sample_mean values).
  { unfold sample_mean. rewrite <- Hm. field. exact Hnz. }
  rewrite Hs, sum_sq_dev_expand, <- Hmean, <- Hm. simpl (INR 1).
  f_equal. ring.
Qed.

Lemma group_std_unbiased (values : list R) :
  (2 <= length values)%nat ->
  group_std values = Some (unbiased_stddev values).
Proof.
  intros Hlen. unfold group_std, unbiased_stddev.
  now rewrite group_var_unbiased.
Qed.

Lemma group_std_single (x : R) : group_std [x] = None.
Proof. reflexivity. Qed.

Lemma group_mean_sample_mean (values : list R) :
  values <> [] -> group_mean values = Some (sample_mean values).
Proof.
  intros H. unfold group_mean, sample_mean.
  destruct values; [congruence|]. now rewrite sum_values_total.
Qed.

Lemma sqrt_5_bounds : 2.23606 <= sqrt 5 <= 2.23607.
Proof.
  pose proof (sqrt_pos 5) as Hpos.
  assert (Hsq : sqrt 5 * sqrt 5 = 5) by (apply sqrt_sqrt; lra).
  split; nra.
Qed.

Lemma five_runs_values :
  map throughput five_runs = [90; 90; 110; 110; 100].
Proof. reflexivity. Qed.

Lemma five_runs_mean :
  sample_mean [90; 90; 110; 110; 100] = 100.
Proof.
  unfold sample_mean, total.
  replace (INR (length [90; 90; 110; 110; 100])) with 5 by (simpl; lra).
  simpl. lra.
Qed.

Lemma five_runs_stddev :
  unbiased_stddev [90; 90; 110; 110; 100] = 10.
Proof.
  unfold unbiased_stddev. rewrite five_runs_mean.
  replace (INR (length [90; 90; 110; 110; 100])) with 5 by (simpl; lra).
  unfold sum_sq_dev, total. simpl.
  replace (_ / _) with (10 * 10) by lra.
  apply sqrt_square. lra.
Qed.

Lemma ci95_of_many (t_ppf : R -> R -> R) (values : list R) :
  (1 < length values)%nat ->
  ci95_of t_ppf (length values) (group_std values)
  = Some (t_ppf 0.975 (INR (length values) - 1)
          * (unbiased_stddev values / sqrt (INR (length values)))).
Proof.
  intros Hn. unfold ci95_of.
  destruct (Nat.ltb_spec 1 (length values)) as [_|Hle]; [|lia].
  rewrite group_std_unbiased by lia. simpl. f_equal.
  unfold Rdiv. ring.
Qed.

Lemma ci95_of_few (t_ppf : R -> R -> R) (count : nat) (std : option R) :
  (count <= 1)%nat -> ci95_of t_ppf count std = Some 0.
Proof.
  intros Hn. unfold ci95_of.
  destruct (Nat.ltb_spec 1 count) as [Hlt|_]; [lia|reflexivity].
Qed.

(** ** The claims *)

(** C5: for a group of n > 1 samples the 95% half-width is the Student-t
    quantile at 0.975 with n - 1 degrees of freedom times stddev / sqrt n,
    and it is 0 for n <= 1.  For five samples of mean 100 and stddev 10 it
    is t(0.975, 4) * 10 / sqrt 5, which lies between 12.41 and 12.42 when
    t(0.975, 4) lies between 2.776 and 2.777. *)
Theorem ci95_student_t (t_ppf : R -> R -> R) :
  (forall group : list BenchRow,
      (1 < length group)%nat ->
      let values := map throughput group in
      let count := INR (length group) in
      std_throughput (plot_throughput_agg t_ppf group)
      = Some (unbiased_stddev values)
      /\ ci95 (plot_throughput_agg t_ppf group)
         = Some (t_ppf 0.975 (count - 1)
                 * (unbiased_stddev values / sqrt count))
      /\ summary_ci95 (write_results_grouped t_ppf group)
         = Some (t_ppf 0.975 (count - 1)
                 * (unbiased_stddev values / sqrt count)))
  /\ (forall group : list BenchRow,
         (length group <= 1)%nat ->
         ci95 (plot_throughput_agg t_ppf group) = Some 0
         /\ summary_ci95 (write_results_grouped t_ppf group) = Some 0)
  /\ (mean_throughput (plot_throughput_agg t_ppf five_runs) = Some 100
      /\ std_throughput (plot_throughput_agg t_ppf five_runs) = Some 10
      /\ ci95 (plot_throughput_agg t_ppf five_runs)
         = Some (t_ppf 0.975 4 * (10 / sqrt 5))
      /\ (2.776 <= t_ppf 0.975 4 <= 2.777 ->
          12.41 <= t_ppf 0.975 4 * (10 / sqrt 5) <= 12.42)).
Proof.
  split; [|split].
  - intros group Hn values count.
    unfold plot_throughput_agg, write_results_grouped. simpl.
    assert (Hl : length (map throughput group) = length group)
      by apply length_map.
    unfold count, values. rewrite <- Hl in Hn |- *.
    split; [apply group_std_unbiased; lia|].
    split; apply ci95_of_many; lia.
  - intros group Hn.
    unfold plot_throughput_agg, write_results_grouped. simpl.
    rewrite length_map. split; now apply ci95_of_few.
  - unfold plot_throughput_agg. cbn [mean_throughput std_throughput ci95].
    rewrite five_runs_values.
    split; [|split; [|split]].
    + rewrite group_mean_sample_mean by discriminate.
      now rewrite five_runs_mean.
    + rewrite group_std_unbiased by (simpl; lia).
      now rewrite five_runs_stddev.
    + rewrite ci95_of_many by (simpl; lia).
      rewrite five_runs_stddev.
      replace (INR (length [90; 90; 110; 110; 100])) with 5 by (simpl; lra).
      replace (5 - 1) with 4 by lra. reflexivity.
    + intros [Hlo Hhi].
      pose proof sqrt_5_bounds as [Hs1 Hs2].
      set (r := sqrt 5) in *. set (t := t_ppf 0.975 4) in *.
      assert (Hr : 0 < r) by lra.
      assert (Hh : t * (10 / r) * r = 10 * t) by (field; lra).
      set (h := t * (10 / r)) in *.
      split; nra.
Qed.

Lemma ci95_student_t_witness :
  ci95 (plot_throughput_agg (fun _ _ => 2.7764) [bench "a" 10; bench "a" 20])
  = Some (2.7764
          * (unbiased_stddev (map throughput [bench "a" 10; bench "a" 20])
             / sqrt (INR 2)))
  /\ ci95 (plot_throughput_agg (fun _ _ => 2.7764) [bench "a" 10]) = Some 0
  /\ 12.41 <= 2.7764 * (10 / sqrt 5) <= 12.42.
Proof.
  split; [|split].
  - apply (proj1 (ci95_student_t (fun _ _ => 2.7764))
             [bench "a" 10; bench "a" 20]).
    simpl. lia.
  - apply (proj1 (proj2 (ci95_student_t (fun _ _ => 2.7764)))
             [bench "a" 10]).
    simpl. lia.
  - apply (proj2 (proj2 (ci95_student_t (fun _ _ => 2.7764)))).
    lra.
Defined.

(** C7, as the code has it: for every group of at least two samples the
    standard deviation is the unbiased (n - 1) sample estimator; for a
    group of exactly one sample it is undefined (NaN), not 0. *)
Theorem stddev_unbiased_estimator (t_ppf : R -> R -> R)
  (group : list BenchRow) :
  ((2 <= length group)%nat ->
   std_throughput (plot_throughput_agg t_ppf group)
   = Some (unbiased_stddev (map throughput group))
   /\ throughput_std (write_results_grouped t_ppf group)
      = Some (unbiased_stddev (map throughput group))
   /\ latency_std (write_results_grouped t_ppf group)
      = Some (unbiased_stddev (map avgLatencyMs group)))
  /\ (length group = 1%nat ->
      std_throughput (plot_throughput_agg t_ppf group) = None
      /\ throughput_std (write_results_grouped t_ppf group) = None
      /\ latency_std (write_results_grouped t_ppf group) = None).
Proof.
  unfold plot_throughput_agg, write_results_grouped. simpl. split.
  - intros Hn. repeat split; apply group_std_unbiased;
      rewrite length_map; exact Hn.
  - intros Hn. destruct group as [|row [|row' group]]; try discriminate.
    repeat split.
Qed.

Lemma stddev_unbiased_estimator_witness :
  std_throughput
    (plot_throughput_agg (fun _ _ => 2.7764) [bench "a" 10; bench "a" 20])
  = Some (unbiased_stddev (map throughput [bench "a" 10; bench "a" 20]))
  /\ std_throughput (plot_throughput_agg (fun _ _ => 2.7764) [bench "a" 10])
     = None.
Proof.
  split.
  - apply (proj1 (stddev_unbiased_estimator (fun _ _ => 2.7764)
                    [bench "a" 10; bench "a" 20])).
    simpl. lia.
  - apply (proj2 (stddev_unbiased_estimator (fun _ _ => 2.7764)
                    [bench "a" 10])).
    reflexivity.
Defined.

(** C7 fails as stated: the standard deviation of a group of one sample is
    NaN, in both tables, and so is not 0. *)
Lemma single_sample_stddev_is_nan :
  std_throughput (plot_throughput_agg (fun _ _ => 0) [bench "a" 42]) = None
  /\ throughput_std (write_results_grouped (fun _ _ => 0) [bench "a" 42])
     = None
  /\ std_throughput (plot_throughput_agg (fun _ _ => 0) [bench "a" 42])
     <> Some 0.
Proof. repeat split. discriminate. Qed.

End Aggregation.


(* ===================================================================== *)
(** ** Further properties of the percentiles                              *)
(* ===================================================================== *)

Section PercentileOrder.
Local Open Scope Q_scope.

Lemma sort_length (a : list Q) : length (sort a) = length a.
Proof. apply Permutation_length, sort_perm. Qed.

Lemma sorted_nth_le (l : list Q) :
  StronglySorted Qle l ->
  forall i j, (i <= j)%nat -> (j < length l)%nat ->
              nth i l 0 <= nth j l 0.
Proof.
  induction 1 as [|x l Hs IH Hx]; intros i j Hij Hj; simpl in Hj; [lia|].
  destruct i as [|i], j as [|j]; simpl; try lia.
  - apply Qle_refl.
  - rewrite List.Forall_forall in Hx. apply Hx, nth_In. lia.
  - apply IH; lia.
Qed.

(** The interpolated value lies between the elements at the floor and at
    the ceiling of the rank. *)
Lemma by_ranks_between (arr : list Q) (rank : Q) :
  StronglySorted Qle arr ->
  0 <= rank -> rank <= inject_Z (Z.of_nat (length arr) - 1) ->
  let v := nth (Z.to_nat (Qfloor rank)) arr 0
           + (nth (Z.to_nat (Qceiling rank)) arr 0
              - nth (Z.to_nat (Qfloor rank)) arr 0)
             * (rank - inject_Z (Qfloor rank)) in
  nth (Z.to_nat (Qfloor rank)) arr 0 <= v
  /\ v <= nth (Z.to_nat (Qceiling rank)) arr 0.
Proof.
  intros Hs H0 Hn v.
  assert (Hf0 : (0 <= Qfloor rank)%Z).
  { change 0%Z with (Qfloor 0). now apply Qfloor_resp_le. }
  assert (Hcn : (Qceiling rank <= Z.of_nat (length arr) - 1)%Z).
  { rewrite <- (Qceiling_Z (Z.of_nat (length arr) - 1)).
    now apply Qceiling_resp_le. }
  pose proof (Qle_floor_ceiling rank) as Hfc. rewrite <- Zle_Qle in Hfc.
  assert (Hab : nth (Z.to_nat (Qfloor rank)) arr 0
                <= nth (Z.to_nat (Qceiling rank)) arr 0).
  { apply sorted_nth_le; [exact Hs|lia|lia]. }
  pose proof (Qfloor_le rank) as Ht0.
  pose proof (Qlt_floor rank) as Ht1. rewrite inject_Z_plus in Ht1.
  change (inject_Z 1) with 1 in Ht1.
  set (a := nth (Z.to_nat (Qfloor rank)) arr 0) in *.
  set (b := nth (Z.to_nat (Qceiling rank)) arr 0) in *.
  set (f := inject_Z (Qfloor rank)) in *.
  unfold v. split; Lqa.nra.
Qed.

Lemma by_ranks_monotone (arr : list Q) (r1 r2 : Q) :
  StronglySorted Qle arr ->
  0 <= r1 -> r1 <= r2 -> r2 <= inject_Z (Z.of_nat (length arr) - 1) ->
  nth (Z.to_nat (Qfloor r1)) arr 0
  + (nth (Z.to_nat (Qceiling r1)) arr 0 - nth (Z.to_nat (Qfloor r1)) arr 0)
    * (r1 - inject_Z (Qfloor r1))
  <= nth (Z.to_nat (Qfloor r2)) arr 0
     + (nth (Z.to_nat (Qceiling r2)) arr 0
        - nth (Z.to_nat (Qfloor r2)) arr 0)
       * (r2 - inject_Z (Qfloor r2)).
Proof.
  intros Hs H0 H12 Hn.
  assert (H02 : 0 <= r2) by (eapply Qle_trans; eassumption).
  assert (H1n : r1 <= inject_Z (Z.of_nat (length arr) - 1))
    by (eapply Qle_trans; eassumption).
  destruct (by_ranks_between arr r1 Hs H0 H1n) as [_ Hup].
  destruct (by_ranks_between arr r2 Hs H02 Hn) as [Hlow _].
  assert (Hf0 : (0 <= Qfloor r1)%Z).
  { change 0%Z with (Qfloor 0). now apply Qfloor_resp_le. }
  pose proof (Qfloor_resp_le _ _ H12) as Hff.
  assert (Hf2n : (Qfloor r2 <= Z.of_nat (length arr) - 1)%Z).
  { rewrite <- (Qfloor_Z (Z.of_nat (length arr) - 1)).
    now apply Qfloor_resp_le. }
  destruct (Z_le_gt_dec (Qceiling r1) (Qfloor r2)) as [Hcf|Hcf].
  - (* the two ranks are separated by an index *)
    eapply Qle_trans; [exact Hup|]. eapply Qle_trans; [|exact Hlow].
    apply sorted_nth_le; [exact Hs|lia|lia].
  - (* both ranks lie strictly inside the same step *)
    destruct (Qceiling_floor r1) as [[Hc1 _]|Hc1]; [lia|].
    assert (Hfeq : Qfloor r2 = Qfloor r1) by lia.
    assert (Hc2 : Qceiling r2 = (Qfloor r1 + 1)%Z).
    { pose proof (Qceiling_resp_le _ _ H12) as Hcc.
      destruct (Qceiling_floor r2) as [[Hc2 _]|Hc2]; lia. }
    rewrite Hfeq, Hc1, Hc2.
    apply Qplus_le_r.
    assert (Hcn : (Qfloor r1 + 1 <= Z.of_nat (length arr) - 1)%Z).
    { rewrite <- Hc2. rewrite <- (Qceiling_Z (Z.of_nat (length arr) - 1)).
      now apply Qceiling_resp_le. }
    assert (Hd : nth (Z.to_nat (Qfloor r1)) arr 0
                 <= nth (Z.to_nat (Qfloor r1 + 1)) arr 0).
    { apply sorted_nth_le; [exact Hs|lia|lia]. }
    set (a := nth (Z.to_nat (Qfloor r1)) arr 0) in *.
    set (b := nth (Z.to_nat (Qfloor r1 + 1)) arr 0) in *.
    set (f := inject_Z (Qfloor r1)) in *.
    Lqa.nra.
Qed.

Lemma rank_bounds (n : nat) (q : Q) :
  (1 <= n)%nat -> 0 <= q -> q <= 100 ->
  0 <= q / 100 * inject_Z (Z.of_nat n - 1)
  /\ q / 100 * inject_Z (Z.of_nat n - 1) <= inject_Z (Z.of_nat n - 1).
Proof.
  intros Hn Hq0 Hq100.
  assert (Hm0 : 0 <= inject_Z (Z.of_nat n - 1)).
  { change 0 with (inject_Z 0). rewrite <- Zle_Qle. lia. }
  split.
  - apply Qmult_le_0_compat; [|exact Hm0].
    apply Qle_shift_div_l; [reflexivity|]. now rewrite Qmult_0_l.
  - rewrite <- (Qmult_1_l (inject_Z (Z.of_nat n - 1))) at 2.
    apply Qmult_le_compat_r; [|exact Hm0].
    apply Qle_shift_div_r; [reflexivity|]. now rewrite Qmult_1_l.
Qed.

Lemma rank_monotone (n : nat) (q1 q2 : Q) :
  (1 <= n)%nat -> q1 <= q2 ->
  q1 / 100 * inject_Z (Z.of_nat n - 1)
  <= q2 / 100 * inject_Z (Z.of_nat n - 1).
Proof.
  intros Hn H12.
  apply Qmult_le_compat_r.
  - unfold Qdiv. apply Qmult_le_compat_r; [exact H12|discriminate].
  - change 0 with (inject_Z 0). rewrite <- Zle_Qle. lia.
Qed.

(** A percentile of a non-empty array is defined. *)
Lemma np_percentile_monotone (a : list Q) (q1 q2 : Q) :
  a <> [] -> 0 <= q1 -> q1 <= q2 -> q2 <= 100 ->
  exists v1 v2,
    np_percentile a q1 = Some v1 /\ np_percentile a q2 = Some v2
    /\ v1 <= v2
    /\ nth 0 (sort a) 0 <= v1
    /\ v2 <= nth (length a - 1) (sort a) 0.
Proof.
  intros Ha H0 H12 H100.
  assert (H02 : 0 <= q2) by (eapply Qle_trans; eassumption).
  assert (H1100 : q1 <= 100) by (eapply Qle_trans; eassumption).
  destruct (np_percentile_by_ranks a q1 Ha H0 H1100) as (v1 & Hv1 & He1).
  destruct (np_percentile_by_ranks a q2 Ha H02 H100) as (v2 & Hv2 & He2).
  exists v1, v2. split; [exact Hv1|]. split; [exact Hv2|].
  assert (Hlen : (1 <= length (sort a))%nat).
  { rewrite sort_length. destruct a; [congruence|simpl; lia]. }
  pose proof (sort_sorted a) as Hs.
  destruct (rank_bounds _ q1 Hlen H0 H1100) as [Hr10 Hr1n].
  destruct (rank_bounds _ q2 Hlen H02 H100) as [Hr20 Hr2n].
  pose proof (rank_monotone _ q1 q2 Hlen H12) as Hr12.
  unfold percentile_by_ranks in He1, He2. cbv zeta in He1, He2.
  rewrite He1, He2. split; [|split].
  - now apply by_ranks_monotone.
  - destruct (by_ranks_between _ _ Hs Hr10 Hr1n) as [Hlo _].
    eapply Qle_trans; [|exact Hlo].
    apply sorted_nth_le; [exact Hs|lia|].
    pose proof (Qfloor_resp_le _ _ Hr1n) as Hfl.
    rewrite Qfloor_Z in Hfl. lia.
  - destruct (by_ranks_between _ _ Hs Hr20 Hr2n) as [_ Hhi].
    eapply Qle_trans; [exact Hhi|].
    pose proof (Qceiling_resp_le _ _ Hr2n) as Hce.
    rewrite Qceiling_Z in Hce.
    rewrite <- (sort_length a).
    apply sorted_nth_le; [exact Hs|lia|lia].
Qed.

End PercentileOrder.


(* ===================================================================== *)
(** ** Rounding                                                           *)
(* ===================================================================== *)

Section Rounding.
Local Open Scope Q_scope.

Lemma Qle_bool_false (x y : Q) : Qle_bool x y = false -> y < x.
Proof.
  intros H. apply Qnot_le_lt. intros Hc.
  apply Qle_bool_iff in Hc. congruence.
Qed.

Lemma Qle_bool_compat (x x' y y' : Q) :
  x == x' -> y == y' -> Qle_bool x y = Qle_bool x' y'.
Proof.
  intros Hx Hy.
  destruct (Qle_bool x y) eqn:H1, (Qle_bool x' y') eqn:H2; try reflexivity.
  - apply Qle_bool_iff in H1. apply Qle_bool_false in H2.
    rewrite Hx, Hy in H1. Lqa.lra.
  - apply Qle_bool_iff in H2. apply Qle_bool_false in H1.
    rewrite <- Hx, <- Hy in H2. Lqa.lra.
Qed.

Lemma round_half_even_cases (x : Q) :
  round_half_even x = Qfloor x \/ round_half_even x = (Qfloor x + 1)%Z.
Proof.
  unfold round_half_even.
  destruct (Qle_bool (1 # 2) _); [|now left].
  destruct (Qle_bool _ (1 # 2)); [|now right].
  destruct (Z.even (Qfloor x)); auto.
Qed.

Lemma round_half_even_compat (x y : Q) :
  x == y -> round_half_even x = round_half_even y.
Proof.
  intros Hxy. unfold round_half_even.
  assert (Hf : Qfloor x = Qfloor y) by now rewrite Hxy.
  rewrite Hf.
  rewrite (Qle_bool_compat (1 # 2) (1 # 2) (x - inject_Z (Qfloor y))
             (y - inject_Z (Qfloor y))) by (try reflexivity; now rewrite Hxy).
  rewrite (Qle_bool_compat (x - inject_Z (Qfloor y)) (y - inject_Z (Qfloor y))
             (1 # 2) (1 # 2)) by (try reflexivity; now rewrite Hxy).
  reflexivity.
Qed.

Lemma round_half_even_monotone (x y : Q) :
  x <= y -> (round_half_even x <= round_half_even y)%Z.
Proof.
  intros Hxy. pose proof (Qfloor_resp_le _ _ Hxy) as Hff.
  destruct (Z.eq_dec (Qfloor x) (Qfloor y)) as [Heq|Hne].
  - unfold round_half_even. rewrite Heq.
    destruct (Qle_bool (1 # 2) (x - inject_Z (Qfloor y))) eqn:Hx1;
      destruct (Qle_bool (1 # 2) (y - inject_Z (Qfloor y))) eqn:Hy1;
      destruct (Qle_bool (x - inject_Z (Qfloor y)) (1 # 2)) eqn:Hx2;
      destruct (Qle_bool (y - inject_Z (Qfloor y)) (1 # 2)) eqn:Hy2;
      destruct (Z.even (Qfloor y)); try lia;
      repeat match goal with
        | H : Qle_bool _ _ = true |- _ => apply Qle_bool_iff in H
        | H : Qle_bool _ _ = false |- _ => apply Qle_bool_false in H
        end; exfalso; Lqa.lra.
  - destruct (round_half_even_cases x) as [-> | ->];
      destruct (round_half_even_cases y) as [-> | ->]; lia.
Qed.

Lemma pow10_pos (ndigits : nat) : 0 < inject_Z (10 ^ Z.of_nat ndigits).
Proof.
  change 0 with (inject_Z 0). rewrite <- Zlt_Qlt.
  apply Z.pow_pos_nonneg; lia.
Qed.

Lemma round_monotone (x y : Q) (ndigits : nat) :
  x <= y -> round x ndigits <= round y ndigits.
Proof.
  intros Hxy. unfold round. pose proof (pow10_pos ndigits) as Hp.
  unfold Qdiv. apply Qmult_le_compat_r.
  - rewrite <- Zle_Qle. apply round_half_even_monotone.
    apply Qmult_le_compat_r; [exact Hxy|now apply Qlt_le_weak].
  - apply Qlt_le_weak, Qinv_lt_0_compat. exact Hp.
Qed.

Lemma round_compat (x y : Q) (ndigits : nat) :
  x == y -> round x ndigits = round y ndigits.
Proof.
  intros Hxy. unfold round.
  rewrite (round_half_even_compat
             (x * inject_Z (10 ^ Z.of_nat ndigits))
             (y * inject_Z (10 ^ Z.of_nat ndigits))) by now rewrite Hxy.
  reflexivity.
Qed.

End Rounding.


(* ===================================================================== *)
(** ** The order of the values does not matter                            *)
(* ===================================================================== *)

Section OrderIndependence.
Local Open Scope Q_scope.

Lemma Forall2_Qeq_refl (l : list Q) : Forall2 Qeq l l.
Proof. induction l; constructor; [reflexivity|assumption]. Qed.

Lemma Forall2_Qeq_trans (l1 l2 l3 : list Q) :
  Forall2 Qeq l1 l2 -> Forall2 Qeq l2 l3 -> Forall2 Qeq l1 l3.
Proof.
  intros H. revert l3. induction H as [|x y l1 l2 Hxy _ IH]; intros l3 H23.
  - inversion H23. constructor.
  - inversion H23 as [|? z ? l3' Hyz H']; subst.
    constructor; [now rewrite Hxy|now apply IH].
Qed.

Lemma insert_sorted_compat (x x' : Q) (l l' : list Q) :
  x == x' -> Forall2 Qeq l l' ->
  Forall2 Qeq (insert_sorted x l) (insert_sorted x' l').
Proof.
  intros Hx H. induction H as [|y y' l l' Hy Hl IH]; simpl.
  - now repeat constructor.
  - rewrite (Qle_bool_compat x x' y y' Hx Hy).
    destruct (Qle_bool x' y'); repeat constructor; assumption.
Qed.

Lemma insert_sorted_comm (x y : Q) (l : list Q) :
  Forall2 Qeq (insert_sorted x (insert_sorted y l))
              (insert_sorted y (insert_sorted x l)).
Proof.
  induction l as [|z l IH]; simpl.
  - destruct (Qle_bool x y) eqn:Hxy, (Qle_bool y x) eqn:Hyx.
    + apply Qle_bool_iff in Hxy, Hyx.
      assert (x == y) by now apply Qle_antisym.
      repeat constructor; [assumption|now symmetry].
    + apply Forall2_Qeq_refl.
    + apply Forall2_Qeq_refl.
    + apply Qle_bool_false in Hxy, Hyx. exfalso. Lqa.lra.
  - destruct (Qle_bool y z) eqn:Hyz, (Qle_bool x z) eqn:Hxz; simpl.
    + destruct (Qle_bool x y) eqn:Hxy, (Qle_bool y x) eqn:Hyx;
        rewrite ?Hyz, ?Hxz.
      * apply Qle_bool_iff in Hxy, Hyx.
        assert (x == y) by now apply Qle_antisym.
        constructor; [assumption|]. constructor; [now symmetry|].
        apply Forall2_Qeq_refl.
      * apply Forall2_Qeq_refl.
      * apply Forall2_Qeq_refl.
      * apply Qle_bool_false in Hxy, Hyx. exfalso. Lqa.lra.
    + destruct (Qle_bool x y) eqn:Hxy.
      * apply Qle_bool_iff in Hxy, Hyz. apply Qle_bool_false in Hxz.
        exfalso. Lqa.lra.
      * rewrite Hxz, Hyz. apply Forall2_Qeq_refl.
    + destruct (Qle_bool y x) eqn:Hyx.
      * apply Qle_bool_iff in Hyx, Hxz. apply Qle_bool_false in Hyz.
        exfalso. Lqa.lra.
      * rewrite Hxz, Hyz. apply Forall2_Qeq_refl.
    + rewrite Hxz, Hyz. constructor; [reflexivity|exact IH].
Qed.

Lemma sort_perm_Qeq (l l' : list Q) :
  Permutation l l' -> Forall2 Qeq (sort l) (sort l').
Proof.
  unfold sort. induction 1 as [|x l l' _ IH|x y l|l1 l2 l3 _ IH1 _ IH2].
  - constructor.
  - simpl. apply insert_sorted_compat; [reflexivity|exact IH].
  - simpl. apply insert_sorted_comm.
  - eapply Forall2_Qeq_trans; eassumption.
Qed.

Lemma Forall2_Qeq_nth (l l' : list Q) (i : nat) :
  Forall2 Qeq l l' -> nth i l 0 == nth i l' 0.
Proof.
  intros H. revert i. induction H as [|x y l l' Hxy _ IH]; intros i.
  - reflexivity.
  - destruct i; simpl; [exact Hxy|apply IH].
Qed.

Lemma np_percentile_compat (a b : list Q) (q : Q) :
  Forall2 Qeq (sort a) (sort b) ->
  same_value (np_percentile a q) (np_percentile b q).
Proof.
  intros H. unfold np_percentile.
  assert (Hlen : length (sort a) = length (sort b))
    by (eapply Forall2_length; exact H).
  rewrite Hlen.
  destruct (Z.of_nat (length (sort b)) =? 0)%Z; [exact I|].
  simpl. rewrite !lerp_linear.
  assert (Hidx : forall i, py_index (sort a) i == py_index (sort b) i).
  { intros i. unfold py_index. rewrite Hlen.
    destruct (i <? 0)%Z; now apply Forall2_Qeq_nth. }
  rewrite !Hidx. reflexivity.
Qed.

Lemma read_all_perm (read : string -> option (list Q))
  (files files' : list string) :
  Permutation files files' ->
  Permutation (concat (read_all read files))
              (concat (read_all read files')).
Proof.
  intros H. unfold read_all.
  induction H as [|f l l' _ IH|f g l|l1 l2 l3 _ IH1 _ IH2]; simpl.
  - constructor.
  - destruct (read f); simpl; [now apply Permutation_app_head|exact IH].
  - destruct (read f), (read g); simpl; try reflexivity.
    rewrite !app_assoc. apply Permutation_app_tail, Permutation_app_comm.
  - etransitivity; eassumption.
Qed.

Lemma read_all_perm_nil (read : string -> option (list Q))
  (files files' : list string) :
  Permutation files files' ->
  read_all read files = [] -> read_all read files' = [].
Proof.
  intros H Hnil. unfold read_all in *.
  assert (Hp : Permutation (omap read files) (omap read files'))
    by now apply omap_Permutation.
  rewrite Hnil in Hp. now apply Permutation_nil in Hp.
Qed.

Lemma rounded_percentile_perm (a b : list Q) (q : Q) :
  Permutation a b ->
  option_map (fun p => round p 3) (np_percentile a q)
  = option_map (fun p => round p 3) (np_percentile b q).
Proof.
  intros H. pose proof (np_percentile_compat a b q (sort_perm_Qeq a b H)) as Hs.
  unfold same_value in Hs.
  destruct (np_percentile a q), (np_percentile b q); try contradiction.
  - simpl. f_equal. now apply round_compat.
  - reflexivity.
Qed.

(** The percentiles depend on the values only, not on their order: on
    permuted arrays [np.percentile] gives the same number, and the row of a
    group is the same whatever the order of its files. *)
Theorem percentiles_ignore_order :
  (forall (a b : list Q) (q : Q),
      Permutation a b ->
      same_value (np_percentile a q) (np_percentile b q))
  /\ (forall read req scen (files files' : list string),
         Permutation files files' ->
         scenario_row read req scen files
         = scenario_row read req scen files').
Proof.
  split.
  - intros a b q H. now apply np_percentile_compat, sort_perm_Qeq.
  - intros read req scen files files' H. unfold scenario_row.
    pose proof (read_all_perm read files files' H) as Hp.
    destruct (read_all read files) as [|v vs] eqn:Ha.
    + now rewrite (read_all_perm_nil read files files' H Ha).
    + destruct (read_all read files') as [|v' vs'] eqn:Hb.
      * symmetry in H.
        rewrite (read_all_perm_nil read files' files H Hb) in Ha.
        discriminate.
      * f_equal. f_equal; now apply rounded_percentile_perm.
Qed.

Lemma percentiles_ignore_order_witness :
  same_value (np_percentile [3; 1; 2] 90) (np_percentile [1; 2; 3] 90)
  /\ scenario_row read_two_runs "req100" "leader" two_runs
     = scenario_row read_two_runs "req100" "leader" (rev two_runs).
Proof.
  split.
  - apply (proj1 percentiles_ignore_order).
    exact (Permutation_cons_append [1; 2] 3).
  - apply (proj2 percentiles_ignore_order). apply perm_swap.
Defined.

End OrderIndependence.


(* ===================================================================== *)
(** ** Percentiles are monotone and bounded                               *)
(* ===================================================================== *)

Section PercentileBounds.
Local Open Scope Q_scope.

Lemma sort_extremes (a : list Q) :
  a <> [] ->
  In (nth 0 (sort a) 0) a
  /\ In (nth (length a - 1) (sort a) 0) a
  /\ Forall (fun x => nth 0 (sort a) 0 <= x
                      /\ x <= nth (length a - 1) (sort a) 0) a.
Proof.
  intros Ha.
  assert (Hlen : (1 <= length (sort a))%nat).
  { rewrite sort_length. destruct a; [congruence|simpl; lia]. }
  pose proof (sort_perm a) as Hp. pose proof (sort_sorted a) as Hs.
  split; [|split].
  - eapply Permutation_in; [exact Hp|]. apply nth_In. lia.
  - eapply Permutation_in; [exact Hp|]. apply nth_In.
    rewrite sort_length in *. lia.
  - apply List.Forall_forall. intros x Hx.
    apply (Permutation_in _ (Permutation_sym Hp)) in Hx.
    destruct (In_nth _ _ 0 Hx) as (i & Hi & <-).
    rewrite <- (sort_length a).
    split; apply sorted_nth_le; try exact Hs; lia.
Qed.

Lemma percentile_0 (a : list Q) :
  a <> [] -> is_value (np_percentile a 0) (nth 0 (sort a) 0).
Proof.
  intros Ha.
  destruct (np_percentile_by_ranks a 0 Ha) as (v & -> & Hv);
    [apply Qle_refl|discriminate|].
  simpl. rewrite Hv. unfold percentile_by_ranks. cbv zeta.
  set (rank := 0 / 100 * inject_Z (Z.of_nat (length (sort a)) - 1)).
  assert (Hr : rank == 0) by (unfold rank; field).
  assert (Hf : Qfloor rank = 0%Z) by now rewrite Hr.
  assert (Hc : Qceiling rank = 0%Z) by now rewrite Hr.
  rewrite Hf, Hc. change (Z.to_nat 0) with 0%nat. ring.
Qed.

Lemma percentile_100 (a : list Q) :
  a <> [] ->
  is_value (np_percentile a 100) (nth (length a - 1) (sort a) 0).
Proof.
  intros Ha.
  destruct (np_percentile_by_ranks a 100 Ha) as (v & -> & Hv);
    [discriminate|apply Qle_refl|].
  simpl. rewrite Hv. unfold percentile_by_ranks. cbv zeta.
  set (m := (Z.of_nat (length (sort a)) - 1)%Z).
  set (rank := 100 / 100 * inject_Z m).
  assert (Hr : rank == inject_Z m) by (unfold rank; field).
  assert (Hf : Qfloor rank = m) by (rewrite Hr; apply Qfloor_Z).
  assert (Hc : Qceiling rank = m) by (rewrite Hr; apply Qceiling_Z).
  rewrite Hf, Hc.
  replace (Z.to_nat m) with (length a - 1)%nat
    by (unfold m; rewrite sort_length; lia).
  ring.
Qed.

(** On a non-empty array a percentile is defined, does not decrease when
    the requested percentage grows, and lies between the smallest and the
    largest value, which are the 0th and the 100th percentile. *)
Theorem percentile_monotone_bounded (a : list Q) (q1 q2 : Q) :
  a <> [] -> 0 <= q1 -> q1 <= q2 -> q2 <= 100 ->
  exists v1 v2 lo hi,
    np_percentile a q1 = Some v1 /\ np_percentile a q2 = Some v2
    /\ v1 <= v2
    /\ In lo a /\ In hi a
    /\ Forall (fun x => lo <= x /\ x <= hi) a
    /\ lo <= v1 /\ v2 <= hi
    /\ is_value (np_percentile a 0) lo
    /\ is_value (np_percentile a 100) hi.
Proof.
  intros Ha H0 H12 H100.
  destruct (np_percentile_monotone a q1 q2 Ha H0 H12 H100)
    as (v1 & v2 & Hv1 & Hv2 & Hle & Hlo & Hhi).
  destruct (sort_extremes a Ha) as (Hin1 & Hin2 & Hall).
  exists v1, v2, (nth 0 (sort a) 0), (nth (length a - 1) (sort a) 0).
  repeat split; try assumption.
  - now apply percentile_0.
  - now apply percentile_100.
Qed.

Lemma percentile_monotone_bounded_witness :
  exists v1 v2 lo hi,
    np_percentile [30; 10; 20] 50 = Some v1
    /\ np_percentile [30; 10; 20] 99 = Some v2
    /\ v1 <= v2
    /\ In lo [30; 10; 20] /\ In hi [30; 10; 20]
    /\ Forall (fun x => lo <= x /\ x <= hi) [30; 10; 20]
    /\ lo <= v1 /\ v2 <= hi
    /\ is_value (np_percentile [30; 10; 20] 0) lo
    /\ is_value (np_percentile [30; 10; 20] 100) hi.
Proof.
  apply (percentile_monotone_bounded [30; 10; 20] 50 99);
    [discriminate | | | ]; unfold Qle; simpl; lia.
Defined.

(** The right end of the x axis of the tail plot is at least 1 and, above
    1, never beyond the largest latency of the request group; there is
    none exactly when a file of the group cannot be read. *)
Theorem tail_xlim_bounds (read : string -> option (list Q))
  (scen_map : dict (list string)) :
  (tail_xlim read scen_map = None <-> tail_reads_ok read scen_map = false)
  /\ (forall x,
        tail_xlim read scen_map = Some x ->
        1 <= x
        /\ (x == 1
            \/ exists files vals v,
                 In files (map snd scen_map) /\ In (Some vals) (map read files)
                 /\ In v vals /\ x <= v)).
Proof.
  unfold tail_xlim. split.
  - destruct (tail_reads_ok read scen_map); split; congruence.
  - intros x. destruct (tail_reads_ok read scen_map); [|discriminate].
    set (all := concat (map (fun item => concat (omap read (snd item)))
                            scen_map)).
    intros [= <-].
    destruct (np_percentile all 99.9) as [xmax|] eqn:Hx;
      [|split; [apply Qle_refl|left; reflexivity]].
    destruct (Qle_bool xmax 1) eqn:Hle;
      [split; [apply Qle_refl|left; reflexivity]|].
    apply Qle_bool_false in Hle. split; [now apply Qlt_le_weak|]. right.
    assert (Hne : all <> []).
    { intros Hc. rewrite Hc in Hx. discriminate. }
    destruct (np_percentile_monotone all 99.9 99.9 Hne)
      as (v1 & v2 & Hv1 & Hv2 & _ & _ & Hhi);
      [discriminate|apply Qle_refl|discriminate|].
    rewrite Hx in Hv2. injection Hv2 as <-.
    destruct (sort_extremes all Hne) as (_ & Hin & _).
    set (hi := nth (length all - 1) (sort all) 0) in *.
    unfold all in Hin. apply in_concat in Hin as (vs & Hvs & Hin).
    apply in_map_iff in Hvs as ([s files] & <- & Hitem). simpl in Hin.
    apply in_concat in Hin as (vals & Hvals & Hin).
    apply list_elem_of_In, list_elem_of_omap in Hvals
      as (f & Hf & Hread).
    exists files, vals, hi. split; [|split; [|split]].
    + apply in_map_iff. now exists (s, files).
    + apply in_map_iff. exists f. split; [exact Hread|].
      now apply list_elem_of_In.
    + exact Hin.
    + exact Hhi.
Qed.

Lemma tail_xlim_bounds_witness :
  1 <= 5.995
  /\ (5.995 == 1
      \/ exists files vals v,
           In files (map snd [("leader", two_runs)])
           /\ In (Some vals) (map read_two_runs files)
           /\ In v vals /\ 5.995 <= v).
Proof.
  apply (proj2 (tail_xlim_bounds read_two_runs [("leader", two_runs)])).
  vm_compute. reflexivity.
Defined.

End PercentileBounds.


(* ===================================================================== *)
(** ** Further properties of the percentile table                         *)
(* ===================================================================== *)

Section PercentileTable.
Local Open Scope Q_scope.

Lemma forallb_false_ex {A} (f : A -> bool) (l : list A) :
  forallb f l = false -> exists x, In x l /\ f x = false.
Proof.
  induction l as [|x l IH]; simpl; [discriminate|].
  destruct (f x) eqn:Hx.
  - intros H. destruct (IH H) as (y & Hy & Hfy). exists y. auto.
  - intros _. exists x. auto.
Qed.

Lemma forallb_ext_in {A} (f g : A -> bool) (l : list A) :
  (forall x, In x l -> f x = g x) -> forallb f l = forallb g l.
Proof.
  induction l as [|x l IH]; intros H; simpl; [reflexivity|].
  rewrite (H x) by now left. f_equal. apply IH. intros y Hy. apply H.
  now right.
Qed.

Lemma flat_map_ext_in {A B} (f g : A -> list B) (l : list A) :
  (forall x, In x l -> f x = g x) -> flat_map f l = flat_map g l.
Proof.
  induction l as [|x l IH]; intros H; simpl; [reflexivity|].
  rewrite (H x) by now left. f_equal. apply IH. intros y Hy. apply H.
  now right.
Qed.

Lemma omap_ext_in {A B} (f g : A -> option B) (l : list A) :
  (forall x, In x l -> f x = g x) -> omap f l = omap g l.
Proof.
  induction l as [|x l IH]; intros H; simpl; [reflexivity|].
  rewrite (H x) by now left.
  destruct (g x); [f_equal|]; apply IH; intros y Hy; apply H; now right.
Qed.

Lemma keyed_in_group (path s r : string) :
  in_group s r path = true -> keyed path = true.
Proof.
  unfold in_group, keyed. now destruct (file_key path).
Qed.

Lemma in_group_own_key (path s r : string) :
  file_key path = Some (s, r) -> in_group s r path = true.
Proof.
  unfold in_group. intros ->. now rewrite !String.eqb_refl.
Qed.

(** Where a row of the table comes from. *)
Lemma plot_rows_origin (read : string -> option (list Q))
  (paths : list string) (rows : list PercentileRow) (row : PercentileRow) :
  plot_latency_cdf read paths = Some rows -> In row rows ->
  exists files,
    files = group_files (scenario row) (request_group row) paths
    /\ files <> []
    /\ Forall (fun f => is_Some (read f)) files
    /\ scenario_row read (request_group row) (scenario row) files
       = Some row.
Proof.
  intros Hplot Hrow.
  destruct (plot_latency_cdf_rows read paths)
    as (by_req & _ & Hsound & _ & Heq).
  rewrite Heq in Hplot.
  destruct (forallb _ by_req) eqn:Hok; [|discriminate].
  injection Hplot as <-.
  apply in_flat_map in Hrow as ([r sm] & Hr & Hrow). simpl in Hrow.
  unfold request_rows in Hrow.
  apply list_elem_of_In, list_elem_of_omap in Hrow as ([s fs] & Hs & Hrow).
  apply list_elem_of_In in Hs. simpl in Hrow.
  destruct (scenario_row_spec _ _ _ _ _ Hrow) as (Hscen & Hreq & _).
  destruct (Hsound _ _ _ _ Hr Hs) as (_ & _ & Hfs & Hne).
  rewrite forallb_forall in Hok. specialize (Hok _ Hr). simpl in Hok.
  rewrite tail_reads_ok_spec in Hok. specialize (Hok _ _ Hs).
  exists fs. rewrite Hscen, Hreq. auto.
Qed.

Lemma scenario_row_ascending (read : string -> option (list Q))
  (req scen : string) (files : list string) (row : PercentileRow) :
  scenario_row read req scen files = Some row ->
  concat (read_all read files) <> [] ->
  ascending_row row.
Proof.
  intros Hrow Hne.
  destruct (scenario_row_spec _ _ _ _ _ Hrow)
    as (_ & _ & _ & H50 & H90 & H95 & H99).
  set (merged := concat (read_all read files)) in *.
  destruct (np_percentile_monotone merged 50 90 Hne)
    as (v50 & v90 & E50 & E90 & L1 & _); try discriminate.
  destruct (np_percentile_monotone merged 90 95 Hne)
    as (v90' & v95 & E90' & E95 & L2 & _); try discriminate.
  destruct (np_percentile_monotone merged 95 99 Hne)
    as (v95' & v99 & E95' & E99 & L3 & _); try discriminate.
  rewrite E90 in E90'. injection E90' as <-.
  rewrite E95 in E95'. injection E95' as <-.
  rewrite E50 in H50. rewrite E90 in H90.
  rewrite E95 in H95. rewrite E99 in H99.
  exists (round v50 3), (round v90 3), (round v95 3), (round v99 3).
  repeat split; try assumption; now apply round_monotone.
Qed.

(** When every latency file that parses holds at least one value, and
    numbers only (the arrays of rationals of the model: no NaN from an
    empty cell, no infinite value), every row of the percentile table has
    its four percentiles defined and in ascending order, also after
    rounding. *)
Theorem table_rows_ascending (read : string -> option (list Q))
  (paths : list string) (rows : list PercentileRow) :
  (forall path vals, read path = Some vals -> vals <> []) ->
  plot_latency_cdf read paths = Some rows ->
  Forall ascending_row rows.
Proof.
  intros Hread Hplot. apply List.Forall_forall. intros row Hrow.
  destruct (plot_rows_origin read paths rows row Hplot Hrow)
    as (files & _ & Hne & Hall & Hsr).
  apply (scenario_row_ascending read _ _ files row Hsr).
  destruct files as [|f files]; [congruence|].
  inversion Hall as [|? ? [vals Hvals] _]; subst.
  unfold read_all. simpl. rewrite Hvals. simpl.
  pose proof (Hread f vals Hvals) as Hv.
  destruct vals; [congruence|discriminate].
Qed.

Lemma table_rows_ascending_witness :
  Forall ascending_row [two_runs_row].
Proof.
  apply (table_rows_ascending read_two_runs two_runs [two_runs_row]).
  - intros path vals. unfold read_two_runs.
    destruct (String.eqb path _); [intros [= <-]; discriminate|].
    destruct (String.eqb path _); [intros [= <-]; discriminate|discriminate].
  - vm_compute. reflexivity.
Defined.

(** [plot_latency_cdf] raises exactly when a file that has a grouping key
    cannot be read: the [try] around the first read does not protect the
    tail plot. *)
Theorem table_fails_iff_unreadable (read : string -> option (list Q))
  (paths : list string) :
  plot_latency_cdf read paths = None
  <-> exists path, In path paths /\ keyed path = true /\ read path = None.
Proof.
  destruct (plot_latency_cdf_rows read paths)
    as (by_req & _ & Hsound & Hcompl & Heq).
  rewrite Heq. split.
  - destruct (forallb _ by_req) eqn:Hok; [discriminate|]. intros _.
    apply forallb_false_ex in Hok as ([r sm] & Hr & Hbad). simpl in Hbad.
    unfold tail_reads_ok in Hbad.
    apply forallb_false_ex in Hbad as ([s files] & Hs & Hbad).
    simpl in Hbad. apply forallb_false_ex in Hbad as (f & Hf & Hbad).
    destruct (Hsound _ _ _ _ Hr Hs) as (_ & _ & -> & _).
    apply List.filter_In in Hf as [Hin Hg].
    exists f. split; [exact Hin|]. split; [now apply keyed_in_group in Hg|].
    now destruct (read f).
  - intros (path & Hin & Hk & Hnone).
    destruct (forallb _ by_req) eqn:Hok; [|reflexivity]. exfalso.
    unfold keyed in Hk.
    destruct (file_key path) as [[s r]|] eqn:Hkey; [|discriminate].
    destruct (Hcompl _ _ _ Hin Hkey) as (sm & files & Hr & Hs).
    destruct (Hsound _ _ _ _ Hr Hs) as (_ & _ & Hfs & _).
    rewrite forallb_forall in Hok. specialize (Hok _ Hr). simpl in Hok.
    rewrite tail_reads_ok_spec in Hok. specialize (Hok _ _ Hs).
    rewrite List.Forall_forall in Hok.
    destruct (Hok path) as [v Hv]; [|congruence].
    rewrite Hfs. apply List.filter_In. split; [exact Hin|].
    now apply in_group_own_key.
Qed.

Lemma table_fails_iff_unreadable_witness :
  plot_latency_cdf read_two_runs
    ("results/leader_req100_dur10_rep3_latencies.csv" :: two_runs)
  = None.
Proof.
  apply (proj2 (table_fails_iff_unreadable read_two_runs
                  ("results/leader_req100_dur10_rep3_latencies.csv"
                   :: two_runs))).
  exists "results/leader_req100_dur10_rep3_latencies.csv".
  split; [now left|]. split; reflexivity.
Defined.

End PercentileTable.


(* ===================================================================== *)
(** ** What the grouping looks at                                         *)
(* ===================================================================== *)

Section GroupingFrame.
Local Open Scope Q_scope.

Lemma split_concat (sep : ascii) (a b : string) :
  split sep (a +:+ String sep b) = split sep a ++ split sep b.
Proof.
  induction a as [|c a IH].
  - simpl. now rewrite Ascii.eqb_refl.
  - change (String c a +:+ String sep b) with (String c (a +:+ String sep b)).
    simpl. rewrite IH.
    destruct (Ascii.eqb c sep); [reflexivity|].
    destruct (split sep a) as [|piece pieces] eqn:Hsp;
      [now apply split_not_nil in Hsp|reflexivity].
Qed.

Lemma last_app_nonempty {A} (l1 l2 : list A) (d : A) :
  l2 <> [] -> List.last (l1 ++ l2) d = List.last l2 d.
Proof.
  intros Hne. induction l1 as [|x l1 IH]; [reflexivity|].
  simpl. destruct (l1 ++ l2) eqn:Happ; [|exact IH].
  apply app_eq_nil in Happ as [_ ->]. congruence.
Qed.

Lemma basename_join (dir name : string) :
  has_char "/" name = false ->
  basename (dir +:+ String "/" name) = name.
Proof.
  intros Hn. unfold basename. rewrite split_concat.
  rewrite last_app_nonempty by apply split_not_nil.
  now rewrite (split_no_sep _ _ Hn).
Qed.

Lemma build_groups_keyed (paths : list string) :
  forall groups,
    fold_left groups_step (List.filter keyed paths) groups
    = fold_left groups_step paths groups.
Proof.
  induction paths as [|path paths IH]; intros groups; [reflexivity|].
  simpl. unfold keyed at 1.
  destruct (file_key path) as [[s r]|] eqn:Hk; simpl.
  - apply IH.
  - rewrite IH. f_equal. rewrite groups_step_key, Hk. reflexivity.
Qed.

Lemma group_files_keyed (s r : string) (paths : list string) (f : string) :
  In f (group_files s r paths) -> In f paths /\ keyed f = true.
Proof.
  unfold group_files. intros H. apply List.filter_In in H as [Hin Hg].
  split; [exact Hin|]. now apply keyed_in_group in Hg.
Qed.

(** Only the files that have a grouping key count, and of a path only its
    last component: files with fewer than four underscore-separated parts
    are neither grouped nor read, and two readers that agree on the keyed
    files give the same table. *)
Theorem table_depends_on_keyed_files :
  (forall read paths,
      plot_latency_cdf read paths
      = plot_latency_cdf read (List.filter keyed paths))
  /\ (forall read read' paths,
         (forall path, In path paths -> keyed path = true ->
                       read path = read' path) ->
         plot_latency_cdf read paths = plot_latency_cdf read' paths)
  /\ (forall dir name,
         has_char "/" name = false ->
         file_key (dir +:+ String "/" name) = file_key name).
Proof.
  split; [|split].
  - intros read paths. unfold plot_latency_cdf, build_groups.
    now rewrite build_groups_keyed.
  - intros read read' paths Hagree.
    destruct (plot_latency_cdf_rows read paths)
      as (by_req & Hb & Hsound & _ & Heq).
    destruct (plot_latency_cdf_rows read' paths)
      as (by_req' & Hb' & _ & _ & Heq').
    rewrite Hb in Hb'. injection Hb' as <-.
    rewrite Heq, Heq'.
    assert (Hfiles : forall r sm s files f,
               In (r, sm) by_req -> In (s, files) sm -> In f files ->
               read f = read' f).
    { intros r sm s files f Hr Hs Hf.
      destruct (Hsound _ _ _ _ Hr Hs) as (_ & _ & -> & _).
      apply group_files_keyed in Hf as [Hin Hk]. now apply Hagree. }
    rewrite (forallb_ext_in
               (fun item => tail_reads_ok read (snd item))
               (fun item => tail_reads_ok read' (snd item))).
    2:{ intros [r sm] Hr. simpl. unfold tail_reads_ok.
        apply forallb_ext_in. intros [s files] Hs. simpl.
        apply forallb_ext_in. intros f Hf.
        now rewrite (Hfiles r sm s files f). }
    rewrite (flat_map_ext_in
               (fun item => request_rows read (fst item) (snd item))
               (fun item => request_rows read' (fst item) (snd item)));
      [reflexivity|].
    intros [r sm] Hr. simpl. unfold request_rows.
    apply omap_ext_in. intros [s files] Hs. simpl.
    unfold scenario_row, read_all.
    rewrite (omap_ext_in read read' files); [reflexivity|].
    intros f Hf. now apply (Hfiles r sm s files f).
  - intros dir name Hn. unfold file_key.
    rewrite (basename_join dir name Hn).
    unfold basename at 1 2 3. now rewrite (split_no_sep _ _ Hn).
Qed.

Lemma table_depends_on_keyed_files_witness :
  plot_latency_cdf read_two_runs two_runs
  = plot_latency_cdf (fun path => if keyed path then read_two_runs path
                                  else Some [])
                     two_runs
  /\ file_key ("results/run7" +:+ String "/" "a_req5_dur1_rep1_latencies.csv")
     = file_key "a_req5_dur1_rep1_latencies.csv".
Proof.
  split.
  - apply (proj1 (proj2 table_depends_on_keyed_files)).
    intros path _ Hk. now rewrite Hk.
  - apply (proj2 (proj2 table_depends_on_keyed_files)). reflexivity.
Defined.

(** *** One row per group *)

Lemma build_by_req_NoDup (groups : dict (list string)) :
  forall by_req,
    build_by_req groups = Some by_req ->
    NoDup (map fst by_req)
    /\ forall r sm, In (r, sm) by_req -> NoDup (map fst sm).
Proof.
  induction groups as [|[key files] groups IH] using rev_ind;
    intros by_req Hb.
  - injection Hb as <-. split; [constructor|intros r sm []].
  - rewrite build_by_req_snoc in Hb.
    destruct (build_by_req groups) as [b0|]; [|discriminate].
    destruct (IH b0 eq_refl) as [Hnd Hsm].
    simpl in Hb.
    destruct (split "_" key) as [|s [|r [|? ?]]]; try discriminate.
    injection Hb as <-. split; [now apply update_NoDup|].
    intros r' sm' Hin.
    apply update_In in Hin as [Hin|[-> ->]]; [now apply (Hsm r')|].
    apply update_NoDup.
    destruct (dict_get r b0) as [sm0|] eqn:Hr; simpl; [|constructor].
    apply dict_get_In in Hr. now apply (Hsm r).
Qed.

Lemma request_rows_keys (read : string -> option (list Q)) (r : string)
  (sm : dict (list string)) (row : PercentileRow) :
  In row (request_rows read r sm) ->
  request_group row = r /\ In (scenario row) (map fst sm).
Proof.
  unfold request_rows. intros H.
  apply list_elem_of_In, list_elem_of_omap in H as ([s fs] & Hs & Hrow).
  simpl in Hrow.
  destruct (scenario_row_spec _ _ _ _ _ Hrow) as (-> & -> & _).
  split; [reflexivity|]. apply list_elem_of_In in Hs.
  now apply (in_map fst) in Hs.
Qed.

Lemma request_rows_NoDup (read : string -> option (list Q)) (r : string)
  (sm : dict (list string)) :
  NoDup (map fst sm) -> NoDup (map row_key (request_rows read r sm)).
Proof.
  induction sm as [|[s fs] sm IH]; intros Hnd; [constructor|].
  simpl in Hnd. apply NoDup_cons in Hnd as [Hs Hnd].
  change (request_rows read r ((s, fs) :: sm))
    with (match scenario_row read r s fs with
          | Some row => row :: request_rows read r sm
          | None => request_rows read r sm
          end).
  destruct (scenario_row read r s fs) as [row|] eqn:Hrow; [|now apply IH].
  simpl. apply NoDup_cons. split; [|now apply IH].
  intros Hin. apply list_elem_of_In, in_map_iff in Hin
    as (row' & Hkey & Hin).
  destruct (request_rows_keys _ _ _ _ Hin) as [_ Hs'].
  destruct (scenario_row_spec _ _ _ _ _ Hrow) as (Hscen & _).
  unfold row_key in Hkey. injection Hkey as Hk _.
  apply Hs, list_elem_of_In. now rewrite <- Hscen, <- Hk.
Qed.

Lemma by_req_rows_NoDup (read : string -> option (list Q))
  (by_req : dict (dict (list string))) :
  NoDup (map fst by_req) ->
  (forall r sm, In (r, sm) by_req -> NoDup (map fst sm)) ->
  NoDup (map row_key
           (flat_map (fun item => request_rows read (fst item) (snd item))
                     by_req)).
Proof.
  induction by_req as [|[r sm] by_req IH]; intros Hnd Hsm; [constructor|].
  simpl in Hnd. apply NoDup_cons in Hnd as [Hr Hnd].
  simpl. rewrite map_app. apply NoDup_app. split; [|split].
  - apply request_rows_NoDup, (Hsm r). now left.
  - intros k Hk Hk'. apply list_elem_of_In in Hk, Hk'.
    apply in_map_iff in Hk as (row & <- & Hrow).
    apply in_map_iff in Hk' as (row' & Hkey & Hrow').
    apply request_rows_keys in Hrow as [Hreq _].
    apply in_flat_map in Hrow' as ([r' sm'] & Hitem & Hrow').
    apply request_rows_keys in Hrow' as [Hreq' _]. simpl in Hreq'.
    unfold row_key in Hkey. injection Hkey as _ Hk.
    apply Hr, list_elem_of_In.
    apply (in_map fst) in Hitem. simpl in Hitem. congruence.
  - apply IH; [exact Hnd|]. intros r' sm' Hin. apply (Hsm r'). now right.
Qed.

(** The percentile table has one row per (scenario, request size) group:
    no two rows share their key, so dropping duplicate rows removes
    nothing. *)
Theorem table_one_row_per_group (read : string -> option (list Q))
  (paths : list string) (rows : list PercentileRow) :
  plot_latency_cdf read paths = Some rows ->
  NoDup (map row_key rows) /\ NoDup rows.
Proof.
  intros Hplot.
  assert (Hkeys : NoDup (map row_key rows)).
  { destruct (plot_latency_cdf_rows read paths)
      as (by_req & Hb & _ & _ & Heq).
    rewrite Heq in Hplot.
    destruct (forallb _ by_req); [|discriminate]. injection Hplot as <-.
    destruct (build_by_req_NoDup _ _ Hb) as [Hnd Hsm].
    now apply by_req_rows_NoDup. }
  split; [exact Hkeys|]. now apply NoDup_fmap_1 in Hkeys.
Qed.

Lemma table_one_row_per_group_witness :
  NoDup (map row_key [two_runs_row]) /\ NoDup [two_runs_row].
Proof.
  apply (table_one_row_per_group read_two_runs two_runs [two_runs_row]).
  vm_compute. reflexivity.
Defined.

End GroupingFrame.


(* ===================================================================== *)
(** ** The empirical CDF                                                  *)
(* ===================================================================== *)

Section EmpiricalCDF.
Local Open Scope Q_scope.

Lemma cdf_levels_length (n : nat) : length (cdf_levels n) = n.
Proof. unfold cdf_levels. now rewrite length_map, length_seq. Qed.

Lemma level_lt (n i j : nat) :
  (0 < n)%nat -> (i < j)%nat ->
  inject_Z (Z.of_nat i) / inject_Z (Z.of_nat n)
  < inject_Z (Z.of_nat j) / inject_Z (Z.of_nat n).
Proof.
  intros Hn Hij. unfold Qdiv. apply Qmult_lt_compat_r.
  - apply Qinv_lt_0_compat. change 0 with (inject_Z 0).
    rewrite <- Zlt_Qlt. lia.
  - rewrite <- Zlt_Qlt. lia.
Qed.

Lemma levels_sorted (n len start : nat) :
  (0 < n)%nat ->
  StronglySorted Qlt
    (map (fun i => inject_Z (Z.of_nat i) / inject_Z (Z.of_nat n))
         (seq start len)).
Proof.
  intros Hn. revert start.
  induction len as [|len IH]; intros start; simpl; constructor.
  - apply IH.
  - apply List.Forall_forall. intros y Hy.
    apply in_map_iff in Hy as (j & <- & Hj). apply in_seq in Hj.
    apply level_lt; [exact Hn|lia].
Qed.

Lemma levels_range (n : nat) :
  Forall (fun y => 0 < y /\ y <= 1) (cdf_levels n).
Proof.
  unfold cdf_levels. apply List.Forall_forall. intros y Hy.
  apply in_map_iff in Hy as (i & <- & Hi). apply in_seq in Hi.
  assert (Hn : 0 < inject_Z (Z.of_nat n)).
  { change 0 with (inject_Z 0). rewrite <- Zlt_Qlt. lia. }
  split.
  - apply Qlt_shift_div_l; [exact Hn|]. rewrite Qmult_0_l.
    change 0 with (inject_Z 0). rewrite <- Zlt_Qlt. lia.
  - apply Qle_shift_div_r; [exact Hn|]. rewrite Qmult_1_l.
    rewrite <- Zle_Qle. lia.
Qed.

Lemma levels_last (n : nat) :
  (0 < n)%nat -> List.last (cdf_levels n) 0 == 1.
Proof.
  intros Hn. unfold cdf_levels.
  destruct n as [|n]; [lia|].
  rewrite seq_S, map_app. simpl.
  rewrite last_app_nonempty by discriminate. simpl.
  apply Qmult_inv_r. intros Hc.
  assert (H : 0 < inject_Z (Z.of_nat (S n))).
  { change 0 with (inject_Z 0). rewrite <- Zlt_Qlt. lia. }
  rewrite Hc in H. discriminate.
Qed.

Lemma combine_fst {A B} (l1 : list A) (l2 : list B) :
  length l1 = length l2 -> map fst (combine l1 l2) = l1.
Proof.
  revert l2. induction l1 as [|x l1 IH]; intros [|y l2] H;
    simpl in *; try discriminate; [reflexivity|].
  f_equal. apply IH. lia.
Qed.

Lemma combine_snd {A B} (l1 : list A) (l2 : list B) :
  length l1 = length l2 -> map snd (combine l1 l2) = l2.
Proof.
  revert l2. induction l1 as [|x l1 IH]; intros [|y l2] H;
    simpl in *; try discriminate; [reflexivity|].
  f_equal. apply IH. lia.
Qed.

(** The curve plotted for a scenario has one point per value: the values
    in ascending order against the levels 1/n, 2/n, ..., which increase
    strictly, lie in (0, 1] and end at 1. *)
Theorem cdf_is_a_distribution (vals : list Q) :
  length (cdf_points vals) = length vals
  /\ Permutation (map fst (cdf_points vals)) vals
  /\ StronglySorted Qle (map fst (cdf_points vals))
  /\ map snd (cdf_points vals) = cdf_levels (length vals)
  /\ StronglySorted Qlt (map snd (cdf_points vals))
  /\ Forall (fun y => 0 < y /\ y <= 1) (map snd (cdf_points vals))
  /\ (vals <> [] -> List.last (map snd (cdf_points vals)) 0 == 1).
Proof.
  unfold cdf_points.
  assert (Hlen : length (sort vals)
                 = length (cdf_levels (length (sort vals))))
    by now rewrite cdf_levels_length.
  rewrite (combine_fst _ _ Hlen), (combine_snd _ _ Hlen).
  rewrite length_combine, <- Hlen, Nat.min_id, sort_length.
  split; [reflexivity|]. split; [apply sort_perm|].
  split; [apply sort_sorted|]. split; [reflexivity|].
  split; [|split].
  - unfold cdf_levels. destruct vals as [|v vals]; [constructor|].
    apply levels_sorted. simpl. lia.
  - apply levels_range.
  - intros Hne. apply levels_last. destruct vals; [congruence|simpl; lia].
Qed.

Lemma cdf_is_a_distribution_witness :
  List.last (map snd (cdf_points [30; 10; 20])) 0 == 1.
Proof.
  apply (proj2 (proj2 (proj2 (proj2 (proj2 (proj2
           (cdf_is_a_distribution [30; 10; 20]))))))).
  discriminate.
Defined.

End EmpiricalCDF.


(* ===================================================================== *)
(** ** Groups without spread                                              *)
(* ===================================================================== *)

Section NoSpread.
Local Open Scope R_scope.

Lemma total_constant (x : R) (values : list R) :
  Forall (fun v => v = x) values -> total values = INR (length values) * x.
Proof.
  unfold total. induction 1 as [|v values Hv _ IH].
  - simpl. lra.
  - rewrite length_cons, S_INR. simpl. rewrite IH, Hv. lra.
Qed.

Lemma sum_sq_dev_constant (x : R) (values : list R) :
  Forall (fun v => v = x) values -> sum_sq_dev x values = 0.
Proof.
  unfold sum_sq_dev, total. induction 1 as [|v values Hv _ IH].
  - reflexivity.
  - simpl. rewrite IH, Hv. lra.
Qed.

Lemma sample_mean_constant (x : R) (values : list R) :
  values <> [] -> Forall (fun v => v = x) values -> sample_mean values = x.
Proof.
  intros Hne H. unfold sample_mean. rewrite (total_constant x values H).
  field. apply not_0_INR. destruct values; [congruence|discriminate].
Qed.

(** The standard deviation of a group of two or more runs is defined and
    never negative; when all runs have the same throughput the mean is
    that throughput and both the standard deviation and the confidence
    half-width are 0. *)
Theorem identical_runs_have_no_spread (t_ppf : R -> R -> R)
  (group : list BenchRow) :
  (2 <= length group)%nat ->
  (exists s, std_throughput (plot_throughput_agg t_ppf group) = Some s
             /\ 0 <= s)
  /\ (forall x,
        Forall (fun row => throughput row = x) group ->
        mean_throughput (plot_throughput_agg t_ppf group) = Some x
        /\ std_throughput (plot_throughput_agg t_ppf group) = Some 0
        /\ ci95 (plot_throughput_agg t_ppf group) = Some 0
        /\ summary_ci95 (write_results_grouped t_ppf group) = Some 0).
Proof.
  intros Hn.
  assert (Hl : (2 <= length (map throughput group))%nat)
    by now rewrite length_map.
  unfold plot_throughput_agg, write_results_grouped. simpl. split.
  - rewrite (group_std_unbiased _ Hl). eexists. split; [reflexivity|].
    unfold unbiased_stddev. apply sqrt_pos.
  - intros x Hx.
    assert (Hc : Forall (fun v => v = x) (map throughput group)).
    { apply List.Forall_forall. intros v Hv.
      apply in_map_iff in Hv as (row & <- & Hrow).
      rewrite List.Forall_forall in Hx. now apply Hx. }
    assert (Hne : map throughput group <> []).
    { destruct (map throughput group); [simpl in Hl; lia|discriminate]. }
    assert (Hsd : unbiased_stddev (map throughput group) = 0).
    { unfold unbiased_stddev.
      rewrite (sample_mean_constant x _ Hne Hc).
      rewrite (sum_sq_dev_constant x _ Hc).
      unfold Rdiv. rewrite Rmult_0_l. apply sqrt_0. }
    rewrite (group_mean_sample_mean _ Hne).
    rewrite (sample_mean_constant x _ Hne Hc).
    rewrite (group_std_unbiased _ Hl), Hsd.
    split; [reflexivity|]. split; [reflexivity|].
    assert (Hci : ci95_of t_ppf (length (map throughput group)) (Some 0)
                  = Some 0).
    { unfold ci95_of.
      destruct (1 <? length (map throughput group))%nat; [|reflexivity].
      simpl. f_equal. unfold Rdiv. ring. }
    split; exact Hci.
Qed.

Lemma identical_runs_have_no_spread_witness :
  ci95 (plot_throughput_agg (fun _ _ => 2.7764)
          [bench "a" 50; bench "a" 50; bench "a" 50])
  = Some 0.
Proof.
  assert (Hn : (2 <= length [bench "a" 50; bench "a" 50; bench "a" 50])%nat)
    by (simpl; lia).
  apply (proj2 (identical_runs_have_no_spread (fun _ _ => 2.7764)
                  [bench "a" 50; bench "a" 50; bench "a" 50] Hn) 50).
  repeat constructor.
Defined.

End NoSpread.

End PlotProps.
